(** * The configuration composition pipeline of [template/config/index.js]

    The module builds one configuration object: an object literal filled
    from the environment map (lines 18-235), the per-environment overlay
    merged in with lodash's [_.merge] (line 238), two derived fields
    (lines 241 and 244), and the collaborators attached afterwards
    (lines 247-284).

    Modelling decisions.
    - Before line 252 the configuration is a tree of freshly built object
      literals: no object is reachable along two paths.  Lines 18-244 are
      therefore modelled on the tree type [jsval].  From line 247 on the
      code creates sharing (line 281, line 283) and a cycle (line 258); that
      part runs on an explicit store of objects ([heap]).
    - An object is its list of own enumerable string-keyed properties in
      insertion order.  Prototype chains, property attributes, array holes
      and the ascending order in which engines enumerate integer-like keys of
      non-array objects are not modelled.
    - JavaScript numbers are modelled by [Z]: every number written in the
      source is an integer ([Number.MAX_VALUE] included).
    - The module has no strict-mode directive, so it runs in sloppy mode: a
      property write on a primitive is silently dropped, a property access
      on [undefined] or [null] throws a TypeError.
    - [_.merge] is modelled on these trees.  The model is exact where an
      overlay plain object meets a plain object or a value lodash starts
      anew from, and an overlay array meets an array without holes or a
      value lodash starts anew from; [Fragment.modelled] says so at every
      depth, and the statements about what the merge yields at particular
      values assume it. *)

From Stdlib Require Import ZArith Lia Bool DecimalString DecimalNat.
From stdpp Require Import base option list strings.

Open Scope string_scope.

(** ** JavaScript values as trees *)

Module Js.

(** What [typeof] and lodash's predicates can tell apart about an object. *)
Inductive okind : Type :=
| KPlain                      (* object literal, JSON data *)
| KArray
| KFunction (name : string)   (* a function, named after where it is written *)
| KInstance (cls : string).   (* an object built by a constructor; not a buffer,
                                 a typed array or an arguments object *)

#[local] Set Warnings "-register-all".

Inductive jsval : Type :=
| JUndefined
| JNull
| JBool (b : bool)
| JNum (n : Z)
| JStr (s : string)
| JObj (k : okind) (ps : list (string * jsval)).

(** Own properties: lookup of the first entry, update in place or append. *)
Fixpoint lookup_prop {A} (key : string) (ps : list (string * A)) : option A :=
  match ps with
  | [] => None
  | (k, v) :: rest => if String.eqb k key then Some v else lookup_prop key rest
  end.

Fixpoint set_prop {A} (key : string) (v : A) (ps : list (string * A))
  : list (string * A) :=
  match ps with
  | [] => [(key, v)]
  | (k, w) :: rest =>
      if String.eqb k key then (k, v) :: rest else (k, w) :: set_prop key v rest
  end.

Definition has_prop {A} (key : string) (ps : list (string * A)) : bool :=
  match lookup_prop key ps with Some _ => true | None => false end.

Definition keys {A} (ps : list (string * A)) : list string := map fst ps.

(** The spread [{...a, ...b}]: the entries of [b] written over [a] in order. *)
Definition spread_props {A} (a b : list (string * A)) : list (string * A) :=
  fold_left (fun acc kv => set_prop (fst kv) (snd kv) acc) b a.

Definition props (v : jsval) : list (string * jsval) :=
  match v with JObj _ ps => ps | _ => [] end.

(** [o[key]] on a value that is not nullish. *)
Definition prop (o : jsval) (key : string) : jsval :=
  match lookup_prop key (props o) with Some v => v | None => JUndefined end.

(** [key in o] restricted to own properties. *)
Definition has_key (o : jsval) (key : string) : bool := has_prop key (props o).

(** [o[key] = v]; in sloppy mode a write on a primitive does nothing.  An
    array is taken as the list of its properties: a write to its [length],
    or past its end, is not described (see [Fragment.modelled]). *)
Definition assign (o : jsval) (key : string) (v : jsval) : jsval :=
  match o with
  | JObj k ps => JObj k (set_prop key v ps)
  | _ => o
  end.

Definition truthy (v : jsval) : bool :=
  match v with
  | JUndefined | JNull => false
  | JBool b => b
  | JNum n => negb (Z.eqb n 0)
  | JStr s => negb (String.eqb s "")
  | JObj _ _ => true
  end.

Definition is_nullish (v : jsval) : bool :=
  match v with JUndefined | JNull => true | _ => false end.

Definition string_of_nat (n : nat) : string :=
  NilZero.string_of_uint (Nat.to_uint n).

Definition string_of_Z (n : Z) : string :=
  NilZero.string_of_int (Z.to_int n).

(** A canonical array index: the decimal spelling of a natural number. *)
Definition is_index (key : string) : bool :=
  match NilZero.uint_of_string key with
  | Some d => String.eqb (string_of_nat (Nat.of_uint d)) key
  | None => false
  end.

(** An array literal [[v0, v1, ...]]. *)
Definition array (vs : list jsval) : jsval :=
  JObj KArray (imap (fun i v => (string_of_nat i, v)) vs).

(** [length] of a dense array: the number of its index keys. *)
Definition array_length (ps : list (string * jsval)) : nat :=
  length (filter (fun kv => is_index (fst kv) = true) ps).

(** The elements [a[0] .. a[length-1]]. *)
Definition elements (ps : list (string * jsval)) : list jsval :=
  map (fun i => match lookup_prop (string_of_nat i) ps with
                | Some v => v
                | None => JUndefined
                end)
      (seq 0 (array_length ps)).

(** The values of the environment map: typed scalars, or nothing. *)
Inductive scalar : Type :=
| SUnset
| SBool (b : bool)
| SNum (n : Z)
| SStr (s : string).

Definition of_scalar (x : scalar) : jsval :=
  match x with
  | SUnset => JUndefined
  | SBool b => JBool b
  | SNum n => JNum n
  | SStr s => JStr s
  end.

(** String conversion of a scalar, as in a template literal or a
    computed property key. *)
Definition to_string (x : scalar) : string :=
  match x with
  | SUnset => "undefined"
  | SBool true => "true"
  | SBool false => "false"
  | SNum n => string_of_Z n
  | SStr s => s
  end.

(** [a === b] where at least one side is a string literal. *)
Definition strict_eq_str (v : jsval) (s : string) : bool :=
  match v with JStr t => String.eqb t s | _ => false end.

(** Size, for well-founded arguments on trees. *)
Fixpoint size (v : jsval) : nat :=
  match v with
  | JObj _ ps =>
      S ((fix go (ps : list (string * jsval)) : nat :=
            match ps with
            | [] => 0
            | (_, w) :: rest => size w + go rest
            end) ps)
  | _ => 1
  end.

(** Every object, at every depth, has pairwise different keys. *)
Fixpoint wf (v : jsval) : Prop :=
  match v with
  | JObj _ ps =>
      NoDup (keys ps) /\
      (fix go (ps : list (string * jsval)) : Prop :=
         match ps with
         | [] => True
         | (_, w) :: rest => wf w /\ go rest
         end) ps
  | _ => True
  end.


End Js.

Import Js.

(** ** The part of lodash 4 that line 238 and line 241 call *)

Module Lodash.

Definition isObject (v : jsval) : bool :=
  match v with JObj _ _ => true | _ => false end.

Definition isPlainObject (v : jsval) : bool :=
  match v with JObj KPlain _ => true | _ => false end.

Definition isArray (v : jsval) : bool :=
  match v with JObj KArray _ => true | _ => false end.

Definition isFunction (v : jsval) : bool :=
  match v with JObj (KFunction _) _ => true | _ => false end.

Definition MAX_SAFE_INTEGER : Z := 9007199254740991.

Definition isLength (v : jsval) : bool :=
  match v with
  | JNum n => Z.leb 0 n && Z.leb n MAX_SAFE_INTEGER
  | _ => false
  end.

(** [value.length], own properties only; arrays and strings carry theirs. *)
Definition length_of (v : jsval) : jsval :=
  match v with
  | JObj KArray ps => JNum (Z.of_nat (array_length ps))
  | JStr s => JNum (Z.of_nat (String.length s))
  | JObj _ ps => match lookup_prop "length" ps with Some n => n | None => JUndefined end
  | _ => JUndefined
  end.

Definition isArrayLike (v : jsval) : bool :=
  negb (is_nullish v) && isLength (length_of v) && negb (isFunction v).

Definition isArrayLikeObject (v : jsval) : bool :=
  isObject v && isArrayLike v.

(** [copyArray(source)]: a new array of [source.length] slots. *)
Definition copyArray (v : jsval) : jsval :=
  match length_of v with
  | JNum n => array (map (fun i => prop v (string_of_nat i)) (seq 0 (Z.to_nat n)))
  | _ => array []
  end.

(** [safeGet(object, key)], given [v = object[key]]. *)
Definition safeKey (key : string) (v : jsval) : jsval :=
  if String.eqb key "constructor" && isFunction v then JUndefined
  else if String.eqb key "__proto__" then JUndefined
  else v.

Definition safeGet (object : jsval) (key : string) : jsval :=
  safeKey key (prop object key).

(** [assignMergeValue(object, key, value)].  The source also skips the
    write when [object[key]] already is [value]; that write would change
    nothing, so the test is left out.  For [undefined] the source asks
    [key in object]; the model looks at own keys, which is the same except
    for the keys an object inherits (see [Fragment.modelled]). *)
Definition assignMergeValue (object : jsval) (key : string) (value : jsval) : jsval :=
  match value with
  | JUndefined => if has_key object key then object else assign object key JUndefined
  | _ => assign object key value
  end.

(** The container [baseMergeDeep] merges [srcValue] into, when it merges
    at all ([isCommon]); [None] when [srcValue] is stored as it is. *)
Definition mergeTarget (objValue srcValue : jsval) : option jsval :=
  match srcValue with
  | JObj KArray _ =>
      Some (if isArray objValue then objValue
            else if isArrayLikeObject objValue then copyArray objValue
            else array [])
  | JObj KPlain _ =>
      Some (if negb (isObject objValue) || isFunction objValue
            then JObj KPlain []
            else objValue)
  | _ => None
  end.

(** [baseMerge(object, source)] with [baseMergeDeep] inlined.  The stack of
    sources being merged only matters for a source that reaches itself,
    which a tree cannot.  [baseFor(source, ..., keysIn)] enumerates the
    properties of [source]; a primitive source has none to offer here
    (line 238 only passes objects). *)
Fixpoint baseMerge (object source : jsval) {struct source} : jsval :=
  match source with
  | JObj _ sps =>
      (fix each (sps : list (string * jsval)) (object : jsval) : jsval :=
         match sps with
         | [] => object
         | (key, srcValue) :: rest =>
             each rest
               (if isObject srcValue then
                  match mergeTarget (safeGet object key) (safeKey key srcValue) with
                  | Some newValue =>
                      assignMergeValue object key (baseMerge newValue srcValue)
                  | None =>
                      assignMergeValue object key (safeKey key srcValue)
                  end
                else assignMergeValue object key srcValue)
         end) sps object
  | _ => object
  end.

(** The kind of an object; the merge never changes it. *)
Definition kind_of (v : jsval) : option okind :=
  match v with JObj k _ => Some k | _ => None end.

(** One round of the loop of [baseMerge], written apart: the value stored
    at [key], from what the object holds there and what the source offers. *)
Definition mergeValue (objValue : jsval) (key : string) (srcValue : jsval) : jsval :=
  if isObject srcValue then
    match mergeTarget (safeKey key objValue) (safeKey key srcValue) with
    | Some newValue => baseMerge newValue srcValue
    | None => safeKey key srcValue
    end
  else srcValue.

Definition mergeStep (object : jsval) (kv : string * jsval) : jsval :=
  assignMergeValue object (fst kv) (mergeValue (prop object (fst kv)) (fst kv) (snd kv)).

(** [_.merge(object, source)]: [createAssigner] skips a falsy source. *)
Definition merge (object source : jsval) : jsval :=
  if truthy source then baseMerge object source else object.

(** [_.some(collection, bool => bool)]. *)
Definition some (collection : jsval) : bool :=
  match collection with
  | JObj KArray ps => existsb truthy (elements ps)
  | JObj _ ps =>
      if isArrayLike collection
      then existsb truthy
             (map (fun i => prop collection (string_of_nat i))
                  (seq 0 (match length_of collection with
                          | JNum n => Z.to_nat n
                          | _ => 0
                          end)))
      else existsb truthy (map snd ps)
  | JStr s => negb (String.eqb s "")
  | _ => false
  end.

End Lodash.

Import Lodash.

(** ** Errors *)

(** The only failure of this module is a TypeError: a property access or a
    method call on a value that cannot take it. *)
Inductive result (A : Type) : Type :=
| Ok (a : A)
| TypeError.

Arguments Ok {A} a.
Arguments TypeError {A}.

Definition rbind {A B} (r : result A) (f : A -> result B) : result B :=
  match r with
  | Ok a => f a
  | TypeError => TypeError
  end.

(** ** Lines 1-244: the literal, the overlay, the derived fields *)

Module Config.

(** Everything the module reads from outside: the required modules that
    are plain data, Node's [__dirname], [os.hostname()], [process.pid] and
    [path.join]. *)
Record inputs : Type := {
  env : string -> scalar;                     (* ./env *)
  environments : list (string * jsval);       (* ./environments: name |-> overlay *)
  utilities : list (string * jsval);          (* ./utilities, as spread on line 155 *)
  phrases : jsval;                            (* ./phrases *)
  pkg : jsval;                                (* ../package *)
  meta : jsval -> jsval;                      (* ./meta *)
  consolidate : jsval;
  dirname : string;
  hostname : string;
  pid : Z;
  path_join : list string -> string
}.

(** Line 238, for any configuration and any entry of the overlay set. *)
Definition apply_overlay (config overlay : jsval) : jsval :=
  if isObject overlay then merge config overlay else config.

Section Literal.

Variable I : inputs.

Definition E (name : string) : jsval := of_scalar (env I name).

Definition obj (ps : list (string * jsval)) : jsval := JObj KPlain ps.

Definition fn (name : string) : jsval := JObj (KFunction name) [].

Definition join (segments : list string) : jsval :=
  JStr (path_join I (dirname I :: segments)).

(** [Number.MAX_VALUE], an integer: (2^53 - 1) * 2^971. *)
Definition MAX_VALUE : Z := (2 ^ 53 - 1) * 2 ^ 971.

Definition is_production : bool := strict_eq_str (E "NODE_ENV") "production".
Definition is_development : bool := strict_eq_str (E "NODE_ENV") "development".

(** Lines 150-157: the later key wins, at the position of the first. *)
Definition views_locals : jsval :=
  obj (set_prop "filters" (obj [])
         (spread_props
            [ ("pretty", JBool true);
              ("cache", JBool (negb is_development)) ]
            (utilities I))).

Definition auth_literal : jsval :=
  obj
    [ ("local", E "AUTH_LOCAL_ENABLED");
      ("providers",
        obj [ ("facebook", E "AUTH_FACEBOOK_ENABLED");
              ("twitter", E "AUTH_TWITTER_ENABLED");
              ("google", E "AUTH_GOOGLE_ENABLED");
              ("github", E "AUTH_GITHUB_ENABLED");
              ("linkedin", E "AUTH_LINKEDIN_ENABLED");
              ("instagram", E "AUTH_INSTAGRAM_ENABLED");
              ("stripe", E "AUTH_STRIPE_ENABLED") ]);
      ("strategies",
        obj [ ("local",
                obj [ ("usernameField", JStr "email");
                      ("passwordField", JStr "password");
                      ("usernameLowerCase", JBool true);
                      ("limitAttempts", JBool true);
                      ("maxAttempts", JNum (if is_development then MAX_VALUE else 5));
                      ("digestAlgorithm", JStr "sha256");
                      ("encoding", JStr "hex");
                      ("saltlen", JNum 32);
                      ("iterations", JNum 25000);
                      ("keylen", JNum 512);
                      ("passwordValidator", fn "passwordValidator") ]);
              ("google",
                obj [ ("clientID", E "GOOGLE_CLIENT_ID");
                      ("clientSecret", E "GOOGLE_CLIENT_SECRET");
                      ("callbackURL",
                        JStr (to_string (env I "WEB_URL") ++ "/auth/google/ok")) ]) ]);
      ("catchError", fn "catchError");
      ("callbackOpts",
        obj [ ("successReturnToOrRedirect", JStr "/");
              ("failureRedirect", JStr "/login");
              ("successFlash", JBool true);
              ("failureFlash", JBool true) ]);
      ("google",
        obj [ ("accessType", JStr "offline");
              ("approvalPrompt", JStr "force");
              ("scope",
                array [ JStr "https://www.googleapis.com/auth/userinfo.email";
                        JStr "https://www.googleapis.com/auth/userinfo.profile" ]) ]) ].

(** Lines 18-235. *)
Definition base_config : jsval :=
  obj
    [ ("emailFontPath", join [".."; "assets"; "fonts"; "GoudyBookletter1911.otf"]);
      ("pkg", pkg I);
      ("protocols", obj [ ("web", E "WEB_PROTOCOL"); ("api", E "API_PROTOCOL") ]);
      ("ports", obj [ ("web", E "WEB_PORT"); ("api", E "API_PORT") ]);
      ("hosts", obj [ ("web", E "WEB_HOST"); ("api", E "API_HOST") ]);
      ("env", E "NODE_ENV");
      ("urls", obj [ ("web", E "WEB_URL"); ("api", E "API_URL") ]);
      ("ssl", obj [ ("web", obj []); ("api", obj []) ]);
      ("googleTranslateKey", E "GOOGLE_TRANSLATE_KEY");
      ("webRequestTimeoutMs", E "WEB_REQUEST_TIMEOUT_MS");
      ("apiRequestTimeoutMs", E "API_REQUEST_TIMEOUT_MS");
      ("contactRequestMaxLength", E "CONTACT_REQUEST_MAX_LENGTH");
      ("cookiesKey", E "COOKIES_KEY");
      ("email",
        obj [ ("message", obj [ ("from", E "EMAIL_DEFAULT_FROM") ]);
              ("send", E "SEND_EMAIL");
              ("juiceResources", obj [ ("preserveImportant", JBool true) ]) ]);
      ("livereload", obj [ ("port", E "LIVERELOAD_PORT") ]);
      ("logger", obj [ ("showStack", E "SHOW_STACK"); ("appName", E "APP_NAME") ]);
      ("ga", E "GOOGLE_ANALYTICS");
      ("sessionKeys", E "SESSION_KEYS");
      ("trustProxy", E "TRUST_PROXY");
      ("isCactiEnabled", E "IS_CACTI_ENABLED");
      ("cors", obj []);
      ("rateLimit",
        obj [ ("duration", JNum 60000);
              ("max", JNum (if is_production then 100 else 1000));
              ("id", fn "rateLimit.id") ]);
      ("koaManifestRev",
        obj [ ("manifest", join [".."; "build"; "rev-manifest.json"]);
              ("prepend",
                JStr (if truthy (E "AWS_CF_DOMAIN") && is_production
                      then "//" ++ to_string (env I "AWS_CF_DOMAIN") ++ "/"
                      else "/")) ]);
      ("appFavicon", join [".."; "assets"; "img"; "favicon.ico"]);
      ("appName", E "APP_NAME");
      ("i18n", obj [ ("phrases", phrases I); ("directory", join [".."; "locales"]) ]);
      ("serveStatic", obj []);
      ("mongoose",
        obj [ ("debug", E "MONGOOSE_DEBUG");
              ("Promise", fn "Promise");
              ("mongo", obj [ ("url", E "DATABASE_URL") ]) ]);
      ("agenda",
        obj [ ("name", JStr (hostname I ++ "_" ++ string_of_Z (pid I)));
              ("maxConcurrency", E "AGENDA_MAX_CONCURRENCY") ]);
      ("agendaCollectionName", E "AGENDA_COLLECTION_NAME");
      ("agendaRecurringJobs", array []);
      ("aws",
        obj [ ("key", E "AWS_IAM_KEY");
              ("accessKeyId", E "AWS_IAM_KEY");
              ("secret", E "AWS_IAM_SECRET");
              ("secretAccessKey", E "AWS_IAM_SECRET");
              ("distributionId", E "AWS_CF_DI");
              ("domainName", E "AWS_CF_DOMAIN");
              ("params", obj [ ("Bucket", E "AWS_S3_BUCKET") ]) ]);
      ("redis", E "REDIS_URL");
      ("buildDir", join [".."; "build"]);
      ("views",
        obj [ ("root", join [".."; "app"; "views"]);
              ("options",
                obj [ ("extension", JStr "pug");
                      ("map", obj []);
                      ("engineSource", consolidate I) ]);
              ("locals", views_locals) ]);
      ("csrf", obj []);
      ("auth", auth_literal);
      ("stripe",
        obj [ ("secretKey", E "STRIPE_SECRET_KEY");
              ("publishableKey", E "STRIPE_PUBLISHABLE_KEY") ]) ].

(** [environments[env.NODE_ENV]]. *)
Definition overlay : jsval :=
  match lookup_prop (to_string (env I "NODE_ENV")) (environments I) with
  | Some o => o
  | None => JUndefined
  end.

(** Line 238. *)
Definition merged_config : jsval := apply_overlay base_config overlay.

(** Line 241.  [config.auth] is read before anything is written: on
    [undefined] or [null] the access throws. *)
Definition derive_providers (config : jsval) : result jsval :=
  let auth := prop config "auth" in
  if is_nullish auth then TypeError
  else
    Ok (assign config "auth"
          (assign auth "hasThirdPartyProviders"
             (JBool (some (prop auth "providers"))))).

(** Line 244. *)
Definition derive_meta (config : jsval) : jsval :=
  assign config "meta" (meta I config).

(** Lines 18-244. *)
Definition derived_config : result jsval :=
  rbind (derive_providers merged_config) (fun config => Ok (derive_meta config)).

End Literal.

End Config.

(** ** The SEO metadata of [./meta] *)

Module MetaSpec.

Import Config.

(** Modelled from the spec: [./meta], the function behind line 244, is
    not among the sources.  The spec describes it as per-page metadata
    synthesized "from templates keyed by page identifier (title/description
    string substitution), producing a mapping from page key to metadata
    record", with the example of template ["{app} — Home"] and app name
    ["Lad"], and asks that a missing page key yield a defined default. *)
Fixpoint fill_from (skip : nat) (app template : string) : string :=
  match template with
  | EmptyString => EmptyString
  | String c rest =>
      match skip with
      | S n => fill_from n app rest
      | O =>
          if String.prefix "{app}" template
          then (app ++ fill_from 4 app rest)%string
          else String c (fill_from 0 app rest)
      end
  end.

(** Every ["{app}"] of the template replaced by the application name. *)
Definition fill (app template : string) : string := fill_from 0 app template.

(** Title and description templates. *)
Definition templates : Type := string * string.

Definition app_name (config : jsval) : string :=
  match prop config "appName" with JStr s => s | _ => "" end.

Definition record (app : string) (t : templates) : jsval :=
  obj [ ("title", JStr (fill app (fst t))); ("description", JStr (fill app (snd t))) ].

(** The mapping from page key to metadata record. *)
Definition meta (pages : list (string * templates)) (config : jsval) : jsval :=
  obj (map (fun p => (fst p, record (app_name config) (snd p))) pages).

(** The metadata of one page, with the defined default for a page key
    that has no entry. *)
Definition page_meta (fallback : templates) (config : jsval) (page : string) : jsval :=
  match lookup_prop page (props (prop config "meta")) with
  | Some r => r
  | None => record (app_name config) fallback
  end.

End MetaSpec.

(** ** The store of objects *)

Module Store.

(** The places of lines 247-284 that create an object.  The code is
    straight-line, so each place creates exactly one. *)
Inductive site : Type :=
| SLogger             (* line 247, [new Logger(...)] *)
| SI18nOptions        (* line 248, [{...config.i18n, logger}] *)
| SI18n               (* line 248, [new I18N(...)] *)
| STranslate          (* line 252, the function expression *)
| STransportAuth      (* line 266, [{user, pass}] *)
| STransportOptions   (* line 261, [{service, auth, logger}] *)
| STransport          (* line 261, what [createTransport] returns *)
| SPluginOptions      (* line 274, [{cloudFrontDomainName, aws}] *)
| SPlugin             (* line 274, what [base64ToS3] returns *)
| SEmailViews         (* line 281, the target [{}] of [Object.assign] *)
| SWebResources.      (* line 284, [{relativeTo}] *)

(** Object identities: an object of the configuration tree is named by its
    path below the root, an object created later by its site. *)
Inductive loc : Type :=
| LConfig (path : list string)
| LSite (s : site).

Definition site_eqb (a b : site) : bool :=
  match a, b with
  | SLogger, SLogger | SI18nOptions, SI18nOptions | SI18n, SI18n
  | STranslate, STranslate | STransportAuth, STransportAuth
  | STransportOptions, STransportOptions | STransport, STransport
  | SPluginOptions, SPluginOptions | SPlugin, SPlugin
  | SEmailViews, SEmailViews | SWebResources, SWebResources => true
  | _, _ => false
  end.

Fixpoint path_eqb (p q : list string) : bool :=
  match p, q with
  | [], [] => true
  | a :: p', b :: q' => String.eqb a b && path_eqb p' q'
  | _, _ => false
  end.

Definition loc_eqb (a b : loc) : bool :=
  match a, b with
  | LConfig p, LConfig q => path_eqb p q
  | LSite s, LSite t => site_eqb s t
  | _, _ => false
  end.

Inductive val : Type :=
| VUndefined
| VNull
| VBool (b : bool)
| VNum (n : Z)
| VStr (s : string)
| VRef (l : loc).

Definition val_of_scalar (x : scalar) : val :=
  match x with
  | SUnset => VUndefined
  | SBool b => VBool b
  | SNum n => VNum n
  | SStr s => VStr s
  end.

(** The function of line 252 closes over [i18n]; every other object is
    described by its [okind]. *)
Inductive hkind : Type :=
| HData (k : okind)
| HTranslate (i18n : val).

Record object : Type := {
  kind : hkind;
  oprops : list (string * val)
}.

Definition plain (ps : list (string * val)) : object :=
  {| kind := HData KPlain; oprops := ps |}.

Definition heap : Type := loc -> option object.

Definition update (h : heap) (l : loc) (o : object) : heap :=
  fun l' => if loc_eqb l' l then Some o else h l'.

(** What the module does to its collaborators, in order. *)
Inductive event : Type :=
| ENew (cls : string) (handle : loc) (args : list val)     (* [new cls(...args)] *)
| ECall (callee : string) (handle : loc) (args : list val) (* [callee(...args)] *)
| EUse (transport : loc) (stage : string) (plugin : val).  (* [transport.use(stage, plugin)] *)

Record state : Type := {
  st_heap : heap;
  st_trace : list event
}.

(** *** Loading a tree into the store *)

Fixpoint subtree (t : jsval) (path : list string) : option jsval :=
  match path with
  | [] => Some t
  | key :: rest =>
      match lookup_prop key (props t) with
      | Some w => subtree w rest
      | None => None
      end
  end.

Definition val_at (path : list string) (t : jsval) : val :=
  match t with
  | JUndefined => VUndefined
  | JNull => VNull
  | JBool b => VBool b
  | JNum n => VNum n
  | JStr s => VStr s
  | JObj _ _ => VRef (LConfig path)
  end.

Definition object_at (path : list string) (t : jsval) : option object :=
  match t with
  | JObj k ps =>
      Some {| kind := HData k;
              oprops := map (fun kv => (fst kv, val_at (path ++ [fst kv]) (snd kv))) ps |}
  | _ => None
  end.

Definition load (t : jsval) : heap :=
  fun l =>
    match l with
    | LConfig path =>
        match subtree t path with
        | Some w => object_at path w
        | None => None
        end
    | LSite _ => None
    end.

(** The value found at [path] in the tree ([undefined] where the path
    leaves it), and what the store holds for it after [load]. *)
Definition node (t : jsval) (path : list string) : jsval :=
  match subtree t path with Some w => w | None => JUndefined end.

Definition tval (t : jsval) (path : list string) : val :=
  val_at path (node t path).

(** *** Reading and writing properties *)

Definition M (A : Type) : Type := state -> result (A * state).

Definition ret {A} (a : A) : M A := fun st => Ok (a, st).

Definition bind {A B} (m : M A) (f : A -> M B) : M B :=
  fun st =>
    match m st with
    | Ok (a, st') => f a st'
    | TypeError => TypeError
    end.

Definition lookup_val (key : string) (ps : list (string * val)) : val :=
  match lookup_prop key ps with Some v => v | None => VUndefined end.

Definition nullish (v : val) : bool :=
  match v with VUndefined | VNull => true | _ => false end.

(** The characters of a string primitive, as own properties. *)
Fixpoint chars_from (i : nat) (s : string) : list (string * val) :=
  match s with
  | EmptyString => []
  | String c rest => (string_of_nat i, VStr (String c EmptyString)) :: chars_from (S i) rest
  end.

(** The own enumerable properties of a value: those of the object it
    refers to, the characters of a string, none for the other
    primitives. *)
Definition entries (h : heap) (v : val) : list (string * val) :=
  match v with
  | VRef l => match h l with Some o => oprops o | None => [] end
  | VStr s => chars_from 0 s
  | _ => []
  end.

(** [v[key]]: a TypeError on [undefined] and [null]. *)
Definition heap_read (h : heap) (v : val) (key : string) : result val :=
  if nullish v then TypeError else Ok (lookup_val key (entries h v)).

(** The store after [v[key] = x] on a [v] that is not nullish: an object
    takes the property, a primitive drops the write (sloppy mode). *)
Definition put (h : heap) (v : val) (key : string) (x : val) : heap :=
  match v with
  | VRef l =>
      match h l with
      | Some o => update h l {| kind := kind o; oprops := set_prop key x (oprops o) |}
      | None => h
      end
  | _ => h
  end.

(** [v] refers to an object of the store. *)
Definition alive (h : heap) (v : val) : bool :=
  match v with
  | VRef l => match h l with Some _ => true | None => false end
  | _ => false
  end.

(** [v] and [w] refer to the same object. *)
Definition same_ref (v w : val) : bool :=
  match v, w with
  | VRef l, VRef l' => loc_eqb l l'
  | _, _ => false
  end.

Definition kind_at (h : heap) (v : val) : option hkind :=
  match v with
  | VRef l => match h l with Some o => Some (kind o) | None => None end
  | _ => None
  end.

(** [v[key] = x]. *)
Definition heap_write (h : heap) (v : val) (key : string) (x : val) : result heap :=
  if nullish v then TypeError else Ok (put h v key x).

Definition read (v : val) (key : string) : M val :=
  fun st =>
    match heap_read (st_heap st) v key with
    | Ok x => Ok (x, st)
    | TypeError => TypeError
    end.

Definition write (v : val) (key : string) (x : val) : M unit :=
  fun st =>
    match heap_write (st_heap st) v key x with
    | Ok h => Ok (tt, {| st_heap := h; st_trace := st_trace st |})
    | TypeError => TypeError
    end.

(** A new object at its site. *)
Definition alloc (s : site) (o : object) : M val :=
  fun st =>
    Ok (VRef (LSite s),
        {| st_heap := update (st_heap st) (LSite s) o; st_trace := st_trace st |}).

Definition emit (e : event) : M unit :=
  fun st => Ok (tt, {| st_heap := st_heap st; st_trace := st_trace st ++ [e] |}).

(** The properties an object spread or [Object.assign] copies from [v];
    a nullish source is skipped, not rejected. *)
Definition own_entries (v : val) : M (list (string * val)) :=
  fun st => Ok (entries (st_heap st) v, st).

(** [path] followed from [v], one property access per key. *)
Fixpoint get_path (h : heap) (v : val) (path : list string) : result val :=
  match path with
  | [] => Ok v
  | key :: rest => rbind (heap_read h v key) (fun w => get_path h w rest)
  end.

End Store.

Import Store.

(** ** Lines 247-284: the collaborators *)

Module Augment.

Notation "'let*' x ':=' m 'in' k" := (bind m (fun x => k))
  (at level 10, x name, m at level 100, k at level 200, only parsing).
Notation "m ';;' k" := (bind m (fun _ => k))
  (at level 100, k at level 200, right associativity, only parsing).

(** [new cls(...args)]: the constructor hands back a fresh instance. *)
Definition construct (s : site) (cls : string) (args : list val) : M val :=
  let* handle := alloc s {| kind := HData (KInstance cls); oprops := [] |} in
  emit (ENew cls (LSite s) args);;
  ret handle.

(** [callee(...args)] for the two factories, whose result is an object of
    kind [k]. *)
Definition factory (s : site) (callee : string) (k : okind) (args : list val) : M val :=
  let* handle := alloc s {| kind := HData k; oprops := [] |} in
  emit (ECall callee (LSite s) args);;
  ret handle.

(** [t.use(stage, plugin)].  [use] is a method of the transports that
    [createTransport] builds; on anything else the call is a TypeError. *)
Definition use (t : val) (stage : string) (plugin : val) : M unit :=
  fun st =>
    match t with
    | VRef l =>
        match st_heap st l with
        | Some {| kind := HData (KInstance "Mail") |} => emit (EUse l stage plugin) st
        | _ => TypeError
        end
    | _ => TypeError
    end.

Section Lines.

Variable I : Config.inputs.

Definition env_val (name : string) : val := val_of_scalar (Config.env I name).

(** The module's [config] variable. *)
Definition config : val := VRef (LConfig []).

(** Lines 247-254. *)
Definition add_translate_filter : M val :=
  let* logger_options := read config "logger" in
  let* logger := construct SLogger "Logger" [logger_options] in
  let* i18n_config := read config "i18n" in
  let* entries := own_entries i18n_config in
  let* i18n_options := alloc SI18nOptions (plain (set_prop "logger" logger entries)) in
  let* i18n := construct SI18n "I18N" [i18n_options] in
  let* views := read config "views" in
  let* locals := read views "locals" in
  let* filters := read locals "filters" in
  let* translate := alloc STranslate {| kind := HTranslate i18n; oprops := [] |} in
  write filters "translate" translate;;
  ret logger.

(** Line 258. *)
Definition add_global_config : M unit :=
  let* views := read config "views" in
  let* locals := read views "locals" in
  write locals "config" config.

(** Lines 261-271. *)
Definition add_transport (logger : val) : M unit :=
  let* email := read config "email" in
  let* auth := alloc STransportAuth
                 (plain [ ("user", env_val "POSTMARK_API_TOKEN");
                          ("pass", env_val "POSTMARK_API_TOKEN") ]) in
  let* options := alloc STransportOptions
                    (plain [ ("service", VStr "postmark");
                             ("auth", auth);
                             ("logger", logger) ]) in
  let* transport :=
    factory STransport "nodemailer.createTransport" (KInstance "Mail") [options] in
  write email "transport" transport.

(** Lines 272-278. *)
Definition add_plugin : M unit :=
  let* email := read config "email" in
  let* transport := read email "transport" in
  let* _ := read transport "use" in
  let* aws := read config "aws" in
  let* options := alloc SPluginOptions
                    (plain [ ("cloudFrontDomainName", env_val "AWS_CF_DOMAIN");
                             ("aws", aws) ]) in
  let* plugin := factory SPlugin "base64ToS3" (KFunction "base64ToS3") [options] in
  use transport "compile" plugin.

Definition emails_dir : val :=
  VStr (Config.path_join I [Config.dirname I; ".."; "emails"]).

(** Line 281.  [Object.assign({}, v)] writes the properties of [v] one
    by one into a new object; an object has each key once, so the new
    object gets the same list. *)
Definition copy_views : M unit :=
  let* email := read config "email" in
  let* views := read config "views" in
  let* entries := own_entries views in
  let* copy := alloc SEmailViews (plain entries) in
  write email "views" copy.

(** Line 282. *)
Definition set_email_root : M unit :=
  let* email := read config "email" in
  let* email_views := read email "views" in
  write email_views "root" emails_dir.

(** Line 283. *)
Definition share_i18n : M unit :=
  let* email := read config "email" in
  let* i18n := read config "i18n" in
  write email "i18n" i18n.

(** Line 284. *)
Definition add_web_resources : M unit :=
  let* email := read config "email" in
  let* juice := read email "juiceResources" in
  let* build_dir := read config "buildDir" in
  let* web := alloc SWebResources (plain [ ("relativeTo", build_dir) ]) in
  write juice "webResources" web.

(** Lines 247-284. *)
Definition augment : M unit :=
  let* logger := add_translate_filter in
  add_global_config;;
  add_transport logger;;
  add_plugin;;
  copy_views;;
  set_email_root;;
  share_i18n;;
  add_web_resources.

(** The store after each of these steps, written out.  [tree] is the
    configuration when line 247 is reached. *)
Section Final.

Variable tree : jsval.

Let at_ (path : list string) : val := tval tree path.

Definition instance (cls : string) : object :=
  {| kind := HData (KInstance cls); oprops := [] |}.

Definition after_translate_filter : heap :=
  let h := update (load tree) (LSite SLogger) (instance "Logger") in
  let h := update h (LSite SI18nOptions)
             (plain (set_prop "logger" (VRef (LSite SLogger))
                       (entries (load tree) (at_ ["i18n"])))) in
  let h := update h (LSite SI18n) (instance "I18N") in
  let h := update h (LSite STranslate)
             {| kind := HTranslate (VRef (LSite SI18n)); oprops := [] |} in
  put h (at_ ["views"; "locals"; "filters"]) "translate" (VRef (LSite STranslate)).

Definition after_global_config : heap :=
  put after_translate_filter (at_ ["views"; "locals"]) "config" config.

Definition after_transport : heap :=
  let h := update after_global_config (LSite STransportAuth)
             (plain [ ("user", env_val "POSTMARK_API_TOKEN");
                      ("pass", env_val "POSTMARK_API_TOKEN") ]) in
  let h := update h (LSite STransportOptions)
             (plain [ ("service", VStr "postmark");
                      ("auth", VRef (LSite STransportAuth));
                      ("logger", VRef (LSite SLogger)) ]) in
  let h := update h (LSite STransport) (instance "Mail") in
  put h (at_ ["email"]) "transport" (VRef (LSite STransport)).

Definition after_plugin : heap :=
  let h := update after_transport (LSite SPluginOptions)
             (plain [ ("cloudFrontDomainName", env_val "AWS_CF_DOMAIN");
                      ("aws", at_ ["aws"]) ]) in
  update h (LSite SPlugin)
    {| kind := HData (KFunction "base64ToS3"); oprops := [] |}.

Definition after_copy_views : heap :=
  let h := update after_plugin (LSite SEmailViews)
             (plain (entries (load tree) (at_ ["views"]))) in
  put h (at_ ["email"]) "views" (VRef (LSite SEmailViews)).

Definition after_email_root : heap :=
  put after_copy_views (VRef (LSite SEmailViews)) "root" emails_dir.

Definition after_share_i18n : heap :=
  put after_email_root (at_ ["email"]) "i18n" (at_ ["i18n"]).

Definition final_heap : heap :=
  let h := update after_share_i18n (LSite SWebResources)
             (plain [ ("relativeTo", at_ ["buildDir"]) ]) in
  put h (at_ ["email"; "juiceResources"]) "webResources" (VRef (LSite SWebResources)).

Definition trace_translate_filter : list event :=
  [ ENew "Logger" (LSite SLogger) [at_ ["logger"]];
    ENew "I18N" (LSite SI18n) [VRef (LSite SI18nOptions)] ].

Definition trace_transport : list event :=
  trace_translate_filter ++
  [ ECall "nodemailer.createTransport" (LSite STransport)
      [VRef (LSite STransportOptions)] ].

Definition final_trace : list event :=
  trace_transport ++
  [ ECall "base64ToS3" (LSite SPlugin) [VRef (LSite SPluginOptions)];
    EUse (LSite STransport) "compile" (VRef (LSite SPlugin)) ].

Definition final_state : state :=
  {| st_heap := final_heap; st_trace := final_trace |}.

(** What lines 247-284 need from the configuration in order not to
    throw. *)
Definition ready : bool :=
  negb (is_nullish (node tree ["views"; "locals"; "filters"])) &&
  isObject (node tree ["email"]) &&
  negb (is_nullish (node tree ["email"; "juiceResources"])).

(** The property writes of lines 247-284 that land in objects of the
    tree: the object's path, the key, the value. *)
Definition slot : Type := list string * string * val.

Definition slots_translate_filter : list slot :=
  [ (["views"; "locals"; "filters"], "translate", VRef (LSite STranslate)) ].

Definition slots_global_config : list slot :=
  (["views"; "locals"], "config", config) :: slots_translate_filter.

Definition slots_transport : list slot :=
  (["email"], "transport", VRef (LSite STransport)) :: slots_global_config.

Definition slots_copy_views : list slot :=
  (["email"], "views", VRef (LSite SEmailViews)) :: slots_transport.

Definition slots_share_i18n : list slot :=
  (["email"], "i18n", at_ ["i18n"]) :: slots_copy_views.

Definition slots_final : list slot :=
  (["email"; "juiceResources"], "webResources", VRef (LSite SWebResources))
    :: slots_share_i18n.

(** What a read of [key] at the object of [path] finds after the writes
    [w] (latest first), [old] being what the tree holds there. *)
Fixpoint written (w : list slot) (path : list string) (key : string) (old : val)
  : val :=
  match w with
  | [] => old
  | (p, k, x) :: rest =>
      if path_eqb p path && String.eqb k key && isObject (node tree p) then x
      else written rest path key old
  end.

(** No write of [w] went to the object of [path]. *)
Definition untouched (w : list slot) (path : list string) : bool :=
  forallb (fun s => negb (path_eqb (fst (fst s)) path)) w.

(** The store [h] holds the tree, changed by the writes [w] only. *)
Definition holds (w : list slot) (h : heap) : Prop :=
  (forall path, alive h (tval tree path) = isObject (node tree path)) /\
  (forall path, kind_at h (tval tree path) = kind_at (load tree) (tval tree path)) /\
  (forall path key,
     lookup_val key (entries h (tval tree path)) =
     written w path key (lookup_val key (entries (load tree) (tval tree path)))) /\
  (forall path, untouched w path = true ->
     entries h (tval tree path) = entries (load tree) (tval tree path)).

End Final.

(** The store when line 247 is reached. *)
Definition initial (tree : jsval) : state :=
  {| st_heap := load tree; st_trace := [] |}.

(** The whole module: what [module.exports] refers to is [config] in the
    final store. *)
Definition pipeline : result state :=
  rbind (Config.derived_config I)
        (fun tree =>
           match augment (initial tree) with
           | Ok (_, st) => Ok st
           | TypeError => TypeError
           end).

End Lines.




(** What [i18n.api.t] answers, for an engine and an argument list. *)
Definition translator : Type := val -> list val -> val.

(** A call [f(...args)] of a function stored in the configuration: the
    function of line 252 passes its arguments on to [i18n.api.t]. *)
Definition call (api_t : translator) (h : heap) (f : val) (args : list val)
  : result val :=
  match f with
  | VRef l =>
      match h l with
      | Some {| kind := HTranslate i18n |} => Ok (api_t i18n args)
      | _ => TypeError
      end
  | _ => TypeError
  end.

(** An unguarded deep traversal (a recursive clone, a serializer without
    cycle detection): it visits a value and then everything reachable from
    it, and counts the visits.  [None] when [fuel] recursive calls did not
    reach the end. *)
Fixpoint traverse (fuel : nat) (h : heap) (v : val) : option nat :=
  match fuel with
  | O => None
  | S fuel' =>
      match v with
      | VRef l =>
          match h l with
          | Some o =>
              fold_left
                (fun acc kv =>
                   match acc, traverse fuel' h (snd kv) with
                   | Some n, Some m => Some (n + m)
                   | _, _ => None
                   end)
                (oprops o) (Some 1)
          | None => Some 1
          end
      | _ => Some 1
      end
  end.

(** [v] in store [h] is the finite tree [t]. *)
Fixpoint represents (h : heap) (v : val) (t : jsval) {struct t} : Prop :=
  match t with
  | JUndefined => v = VUndefined
  | JNull => v = VNull
  | JBool b => v = VBool b
  | JNum n => v = VNum n
  | JStr s => v = VStr s
  | JObj k ps =>
      exists l o, v = VRef l /\ h l = Some o /\
        (fix all (ps : list (string * jsval)) (vs : list (string * val)) : Prop :=
           match ps, vs with
           | [], [] => True
           | (key, w) :: ps', (key', x) :: vs' =>
               key = key' /\ represents h x w /\ all ps' vs'
           | _, _ => False
           end) ps (oprops o)
  end.

End Augment.

(** ** Concrete inputs *)

Module Samples.

Import Config.

Definition sample_vars : list (string * scalar) :=
  [ ("NODE_ENV", SStr "production");
    ("APP_NAME", SStr "Lad");
    ("AUTH_LOCAL_ENABLED", SBool true);
    ("AUTH_FACEBOOK_ENABLED", SBool false);
    ("AUTH_TWITTER_ENABLED", SBool false);
    ("AUTH_GOOGLE_ENABLED", SBool true);
    ("AUTH_GITHUB_ENABLED", SBool false);
    ("AUTH_LINKEDIN_ENABLED", SBool false);
    ("AUTH_INSTAGRAM_ENABLED", SBool false);
    ("AUTH_STRIPE_ENABLED", SBool false);
    ("POSTMARK_API_TOKEN", SStr "postmark-token");
    ("AWS_CF_DOMAIN", SStr "cdn.example.com");
    ("WEB_URL", SStr "https://lad.example.com") ].

Definition sample_env (name : string) : scalar :=
  match lookup_prop name sample_vars with Some x => x | None => SUnset end.

Definition sample_pages : list (string * MetaSpec.templates) :=
  [ ("home", ("{app} — Home", "{app} is up")) ].

(** A production deployment with the overlay set [overlays]. *)
Definition deployment (overlays : list (string * jsval)) : inputs :=
  {| env := sample_env;
     environments := overlays;
     utilities := [ ("titleize", fn "titleize") ];
     phrases := obj [ ("HELLO", JStr "Hello") ];
     pkg := obj [ ("name", JStr "lad") ];
     meta := MetaSpec.meta sample_pages;
     consolidate := JObj (KInstance "consolidate") [];
     dirname := "/srv/lad/config";
     hostname := "web-1";
     pid := 4242;
     path_join := String.concat "/" |}.

(** No overlay for any environment. *)
Definition sample : inputs := deployment [].



(** Two small configurations that differ in an array. *)
Definition two_scopes : jsval :=
  obj [ ("scope", array [ JStr "email"; JStr "profile" ]);
        ("accessType", JStr "offline") ].

Definition one_scope : jsval :=
  obj [ ("scope", array [ JStr "openid" ]) ].

(** The configuration line 247 finds, and the store line 286 exports. *)
Definition tree_of (I : inputs) : jsval :=
  match derived_config I with Ok t => t | TypeError => JUndefined end.

Definition state_of (I : inputs) : state := Augment.final_state I (tree_of I).

End Samples.

(** ** Overlays: what line 238 is given *)

Module Overlays.

Import Config Samples Augment.

(** A key that [safeGet] reads. *)
Definition plain_key (key : string) : Prop := key <> "constructor" /\ key <> "__proto__".

(** [baseMergeDeep] merges [o] into the value [b] that the object holds,
    not into a new container and not by storing [o] itself. *)
Definition merged_in_place (b o : jsval) : bool :=
  (isPlainObject o && isObject b && negb (isFunction b)) || (isArray o && isArray b).

(** A value that [baseMerge] stores as it is, and that is not skipped. *)
Definition scalar_value (v : jsval) : Prop := isObject v = false /\ v <> JUndefined.

(** The entry of an array for its element [i]. *)
Definition entry (i : nat) (v : jsval) : string * jsval := (string_of_nat i, v).


(** The blocks that lines 241-284 reach into. *)
Definition required_blocks : list (list string) :=
  [ ["auth"];
    ["views"];
    ["views"; "locals"];
    ["views"; "locals"; "filters"];
    ["email"];
    ["email"; "juiceResources"] ].

(** An overlay that enables one more provider. *)
Definition github_on : jsval :=
  obj [ ("auth", obj [ ("providers", obj [ ("github", JBool true) ]) ]) ].

Definition sample_github : inputs := deployment [ ("production", github_on) ].

(** An overlay that replaces the table of filters by a scalar. *)
Definition filters_off : jsval :=
  obj [ ("views", obj [ ("locals", obj [ ("filters", JBool false) ]) ]) ].

Definition sample_filters_off : inputs := deployment [ ("production", filters_off) ].

(** An overlay that removes the authentication block. *)
Definition auth_null : jsval := obj [ ("auth", JNull) ].

Definition sample_auth_null : inputs := deployment [ ("production", auth_null) ].





End Overlays.

(** ** The part of [_.merge] that the model describes

    [assign] writes an own data property and nothing else, and
    [assignMergeValue] looks at own keys only.  That is what lodash does as
    long as no write goes to the [length] of an array or past its end, none
    goes into a constructed object (whose class may answer a write in its own
    way), and no value of the overlay is [undefined] (lodash then asks
    [key in object], which also sees inherited keys).  [modelled b o] says
    that the merge of the overlay value [o] into the base value [b] stays in
    that part, at every depth. *)

Module Fragment.

Import Overlays.







End Fragment.

(** * Proofs *)

Import Augment.
Import Samples.
Open Scope list_scope.

(** ** Properties, and [merge] applied twice *)

Ltac eqb_cases :=
  repeat match goal with
    | H : String.eqb ?a ?b = true |- _ => apply String.eqb_eq in H; try subst
    | H : String.eqb ?a ?b = false |- _ => apply String.eqb_neq in H
    | |- context [String.eqb ?a ?b] =>
        let E := fresh "E" in destruct (String.eqb a b) eqn:E; simpl
    end; try congruence.

Section Props.
Context {A : Type}.
Implicit Types (ps : list (string * A)) (k : string).

Lemma lookup_set_same k (v : A) ps : lookup_prop k (set_prop k v ps) = Some v.
Proof.
  induction ps as [|[k' w] ps IH]; simpl.
  - by rewrite String.eqb_refl.
  - destruct (String.eqb k' k) eqn:E; simpl; rewrite E; auto.
Qed.

Lemma lookup_set_other k k' (v : A) ps :
  k <> k' -> lookup_prop k' (set_prop k v ps) = lookup_prop k' ps.
Proof.
  intros Hne. induction ps as [|[k0 w] ps IH]; simpl; eqb_cases.
Qed.

Lemma set_prop_same k (v : A) ps : lookup_prop k ps = Some v -> set_prop k v ps = ps.
Proof.
  induction ps as [|[k0 w] ps IH]; simpl; [discriminate|].
  destruct (String.eqb k0 k) eqn:E.
  - intros [= ->]. reflexivity.
  - intros H. by rewrite IH.
Qed.

End Props.

(* baseMerge as a fold *)
Lemma baseMerge_fold object k sps :
  baseMerge object (JObj k sps) = fold_left mergeStep sps object.
Proof.
  simpl. revert object. induction sps as [|[key sv] sps IH]; intros object; [reflexivity|].
  simpl fold_left. rewrite <- IH. clear IH.
  f_equal.
  unfold mergeStep, mergeValue, safeGet. simpl fst. simpl snd.
  destruct (isObject sv); [|reflexivity].
  destruct (mergeTarget _ _); reflexivity.
Qed.

Lemma size_in key sv sps k : In (key, sv) sps -> size sv < size (JObj k sps).
Proof.
  simpl. induction sps as [|[k0 w] sps IH]; simpl; [tauto|].
  intros [[= -> ->]|Hin]; [lia|]. specialize (IH Hin). lia.
Qed.

Lemma wf_obj k sps :
  wf (JObj k sps) <-> NoDup (keys sps) /\ Forall (fun kv => wf (snd kv)) sps.
Proof.
  simpl. split; intros [Hnd H]; split; auto; clear Hnd.
  - induction sps as [|[k0 w] sps IH]; constructor; simpl in *; tauto.
  - induction sps as [|[k0 w] sps IH]; [exact Logic.I|].
    inversion H; subst. split; [assumption|]. apply IH. assumption.
Qed.

Lemma kind_assign o k v : kind_of (assign o k v) = kind_of o.
Proof. by destruct o. Qed.

Lemma kind_amv o k v : kind_of (assignMergeValue o k v) = kind_of o.
Proof. destruct v; simpl; try apply kind_assign. destruct (has_key o k); auto using kind_assign. Qed.

Lemma kind_fold sps : forall o, kind_of (fold_left mergeStep sps o) = kind_of o.
Proof.
  induction sps as [|kv sps IH]; intros o; simpl; [done|].
  rewrite IH. apply kind_amv.
Qed.

Lemma kind_baseMerge o s : kind_of (baseMerge o s) = kind_of o.
Proof. destruct s; try reflexivity. rewrite baseMerge_fold. apply kind_fold. Qed.


(* assignMergeValue facts *)
Lemma prop_assign_other o k k' v : k <> k' -> prop (assign o k v) k' = prop o k'.
Proof. intros. destruct o; try reflexivity. unfold prop; simpl. by rewrite lookup_set_other. Qed.

Lemma prop_assign_same k0 ps k v : prop (assign (JObj k0 ps) k v) k = v.
Proof. unfold prop; simpl. by rewrite lookup_set_same. Qed.

Lemma has_key_assign_other o k k' v : k <> k' -> has_key (assign o k v) k' = has_key o k'.
Proof. intros. destruct o; try reflexivity. unfold has_key, has_prop; simpl. by rewrite lookup_set_other. Qed.

Lemma has_key_assign_same k0 ps k v : has_key (assign (JObj k0 ps) k v) k = true.
Proof. unfold has_key, has_prop; simpl. by rewrite lookup_set_same. Qed.

Lemma prop_amv_other o k k' v : k <> k' -> prop (assignMergeValue o k v) k' = prop o k'.
Proof.
  intros. destruct v; simpl; try by apply prop_assign_other.
  destruct (has_key o k); [done|by apply prop_assign_other].
Qed.

Lemma has_key_amv_other o k k' v :
  k <> k' -> has_key (assignMergeValue o k v) k' = has_key o k'.
Proof.
  intros. destruct v; simpl; try by apply has_key_assign_other.
  destruct (has_key o k); [done|by apply has_key_assign_other].
Qed.

Lemma has_key_amv_same k0 ps k v : has_key (assignMergeValue (JObj k0 ps) k v) k = true.
Proof.
  destruct v; simpl; try apply has_key_assign_same.
  destruct (has_key (JObj k0 ps) k) eqn:E; [done|apply has_key_assign_same].
Qed.

Lemma prop_amv_same k0 ps k v :
  v <> JUndefined -> prop (assignMergeValue (JObj k0 ps) k v) k = v.
Proof. intros. destruct v; try congruence; apply prop_assign_same. Qed.

Lemma amv_primitive o k v : isObject o = false -> assignMergeValue o k v = o.
Proof. destruct o; try discriminate; intros _; destruct v; reflexivity. Qed.

Lemma assign_same o k v : has_key o k = true -> prop o k = v -> assign o k v = o.
Proof.
  destruct o; try reflexivity. unfold has_key, has_prop, prop; simpl.
  destruct (lookup_prop k ps) eqn:E; [|discriminate]. intros _ ->.
  by rewrite set_prop_same.
Qed.

Lemma amv_same o k v :
  has_key o k = true -> (v = JUndefined \/ prop o k = v) -> assignMergeValue o k v = o.
Proof.
  intros Hk [->|Hv]; simpl; [by rewrite Hk|].
  destruct v; simpl; try (by apply assign_same). by rewrite Hk.
Qed.

Lemma mergeStep_primitive o kv : isObject o = false -> mergeStep o kv = o.
Proof. intros. by apply amv_primitive. Qed.

Lemma fold_primitive sps o : isObject o = false -> fold_left mergeStep sps o = o.
Proof. intros H. induction sps; simpl; [done|]. by rewrite mergeStep_primitive. Qed.

Lemma fold_other key sps : forall o,
  ~ In key (keys sps) ->
  prop (fold_left mergeStep sps o) key = prop o key /\
  has_key (fold_left mergeStep sps o) key = has_key o key.
Proof.
  induction sps as [|[k0 sv] sps IH]; intros o Hni; simpl; [done|].
  simpl in Hni. destruct (IH (mergeStep o (k0, sv))) as [-> ->]; [tauto|].
  unfold mergeStep; simpl. rewrite prop_amv_other, has_key_amv_other; tauto.
Qed.

Lemma fold_fixed {A B} (f : A -> B -> A) (l : list B) (a : A) :
  (forall x, In x l -> f a x = a) -> fold_left f l a = a.
Proof.
  induction l as [|x l IH]; simpl; intros H; [done|].
  rewrite (H x) by auto. apply IH. auto.
Qed.

Lemma mergeValue_undefined ov ov' key sv :
  mergeValue ov key sv = JUndefined -> mergeValue ov' key sv = JUndefined.
Proof.
  unfold mergeValue. destruct (isObject sv) eqn:Eo; [|done].
  destruct (mergeTarget (safeKey key ov) (safeKey key sv)) as [nv|] eqn:Et.
  - intros H. pose proof (kind_baseMerge nv sv) as Hk. rewrite H in Hk. simpl in Hk.
    exfalso. unfold mergeTarget in Et.
    destruct (safeKey key sv) as [| | | | |[] ?]; try discriminate;
      injection Et as <-.
    + destruct (safeKey key ov) as [| | | | |[] ?]; simpl in Hk; try discriminate.
    + destruct (isArray (safeKey key ov)) eqn:Ea.
      * destruct (safeKey key ov) as [| | | | |[] ?]; simpl in *; discriminate.
      * destruct (isArrayLikeObject (safeKey key ov)).
        -- unfold copyArray in Hk. destruct (length_of _); discriminate.
        -- discriminate.
  - intros H. rewrite H in Et |- *. unfold mergeTarget. simpl.
    unfold mergeTarget in Et. by destruct (mergeTarget (safeKey key ov') JUndefined).
Qed.

Lemma safeKey_cases key v : safeKey key v = JUndefined \/ safeKey key v = v.
Proof.
  unfold safeKey. destruct (String.eqb key "constructor" && isFunction v); auto.
  destruct (String.eqb key "__proto__"); auto.
Qed.

Lemma safeKey_keep key v w :
  safeKey key v = v -> v <> JUndefined -> isFunction w = false -> safeKey key w = w.
Proof.
  unfold safeKey. intros H Hv Hw. rewrite Hw, andb_false_r.
  destruct (String.eqb key "constructor" && isFunction v); [congruence|].
  destruct (String.eqb key "__proto__"); [congruence|done].
Qed.

Lemma isFunction_kind v : isFunction v = match kind_of v with Some (KFunction _) => true | _ => false end.
Proof. by destruct v as [| | | | |[] ?]. Qed.

Lemma isArray_kind v : isArray v = match kind_of v with Some KArray => true | _ => false end.
Proof. by destruct v as [| | | | |[] ?]. Qed.

Lemma isObject_kind v : isObject v = match kind_of v with Some _ => true | _ => false end.
Proof. by destruct v. Qed.

Lemma mergeTarget_kind ov sv nv :
  mergeTarget ov sv = Some nv ->
  (kind_of sv = Some KArray /\ kind_of nv = Some KArray) \/
  (kind_of sv = Some KPlain /\ isObject nv = true /\ isFunction nv = false).
Proof.
  unfold mergeTarget. destruct sv as [| | | | |[] ?]; try discriminate; intros [= <-].
  - right. split; [done|].
    destruct (isObject ov) eqn:Eo; simpl; [|done].
    by destruct (isFunction ov) eqn:Ef.
  - left. split; [done|].
    destruct (isArray ov) eqn:Ea; [by rewrite isArray_kind in Ea; destruct (kind_of ov) as [[]|]|].
    destruct (isArrayLikeObject ov); [|done].
    unfold copyArray. by destruct (length_of ov).
Qed.

Lemma mergeTarget_again sv val :
  (kind_of sv = Some KArray /\ kind_of val = Some KArray) \/
  (kind_of sv = Some KPlain /\ isObject val = true /\ isFunction val = false) ->
  mergeTarget val sv = Some val.
Proof.
  intros [[Hs Hv]|[Hs [Ho Hf]]]; destruct sv as [| | | | |[] ?]; try discriminate; simpl.
  - by rewrite isArray_kind, Hv.
  - by rewrite Ho, Hf.
Qed.

Lemma mergeValue_again ov key sv :
  (forall object, baseMerge (baseMerge object sv) sv = baseMerge object sv) ->
  mergeValue ov key sv <> JUndefined ->
  mergeValue (mergeValue ov key sv) key sv = mergeValue ov key sv.
Proof.
  intros IH. unfold mergeValue at 1 3 4. destruct (isObject sv) eqn:Eo.
  2:{ intros _. unfold mergeValue. by rewrite Eo. }
  destruct (safeKey_cases key sv) as [Hs|Hs].
  { rewrite Hs. simpl. congruence. }
  destruct (mergeTarget (safeKey key ov) (safeKey key sv)) as [nv|] eqn:Et.
  - intros _. unfold mergeValue. rewrite Eo.
    assert (Hsv : sv <> JUndefined) by (intros ->; discriminate).
    rewrite Hs in Et. apply mergeTarget_kind in Et.
    assert (Hk := kind_baseMerge nv sv).
    assert (Hnf : isFunction (baseMerge nv sv) = false).
    { rewrite isFunction_kind, Hk. destruct Et as [[_ ->]|[_ [_ Hf]]]; [done|].
      by rewrite isFunction_kind in Hf. }
    rewrite (safeKey_keep key sv _ Hs Hsv Hnf), Hs.
    rewrite mergeTarget_again; [apply IH|].
    destruct Et as [[Ha Hb]|[Ha [Ho Hf]]]; [left|right].
    + split; congruence.
    + split; [done|]. split; [|done].
      rewrite isObject_kind, Hk. by rewrite isObject_kind in Ho.
  - intros Hne. unfold mergeValue. rewrite Eo.
    rewrite Hs in Et |- *.
    assert (mergeTarget (safeKey key sv) sv = None) as ->; [|done].
    unfold mergeTarget in *. by destruct sv as [| | | | |[] ?].
Qed.

Lemma mergeStep_fixed k0 ops sps key sv :
  NoDup (keys sps) ->
  In (key, sv) sps ->
  (forall object, baseMerge (baseMerge object sv) sv = baseMerge object sv) ->
  let M := fold_left mergeStep sps (JObj k0 ops) in
  mergeStep M (key, sv) = M.
Proof.
  intros Hnd Hin IH M.
  apply in_split in Hin as [l1 [l2 ->]].
  unfold keys in Hnd. rewrite map_app in Hnd. simpl in Hnd.
  apply NoDup_app in Hnd as [Hnd1 [Hdisj Hnd2]].
  apply NoDup_cons in Hnd2 as [Hni2 _].
  assert (Hni1 : ~ In key (keys l1)).
  { intros Hi. apply (Hdisj key); [by apply list_elem_of_In|left]. }
  assert (Hni2' : ~ In key (keys l2)) by (by rewrite <- list_elem_of_In).
  subst M. rewrite fold_left_app. simpl fold_left.
  set (O1 := fold_left mergeStep l1 (JObj k0 ops)).
  set (O2 := mergeStep O1 (key, sv)).
  destruct (fold_other key l2 O2 Hni2') as [HpM HkM].
  set (M := fold_left mergeStep l2 O2) in *.
  assert (HO1 : exists ps1, O1 = JObj k0 ps1).
  { pose proof (kind_fold l1 (JObj k0 ops)) as Hk. fold O1 in Hk.
    destruct O1; try discriminate. simpl in Hk. injection Hk as ->. eauto. }
  destruct HO1 as [ps1 HO1].
  unfold mergeStep at 1. simpl fst. simpl snd.
  assert (HkO2 : has_key O2 key = true).
  { unfold O2, mergeStep. simpl. rewrite HO1. apply has_key_amv_same. }
  apply amv_same; [congruence|].
  rewrite HpM.
  set (val := mergeValue (prop O1 key) key sv).
  assert (HO2 : O2 = assignMergeValue O1 key val) by reflexivity.
  assert (Hdec : val = JUndefined \/ val <> JUndefined)
    by (destruct val; auto; right; discriminate).
  destruct Hdec as [Hu|Hu].
  - left. eapply mergeValue_undefined. exact Hu.
  - right.
    assert (Hp2 : prop O2 key = val) by (rewrite HO2, HO1; by apply prop_amv_same).
    rewrite Hp2. symmetry. by apply mergeValue_again.
Qed.

Lemma baseMerge_again_size n : forall source,
  size source <= n -> wf source ->
  forall object, baseMerge (baseMerge object source) source = baseMerge object source.
Proof.
  induction n as [|n IHn]; intros source Hsz Hwf object.
  { destruct source; simpl in Hsz; inversion Hsz. }
  destruct source as [| | | | |k sps]; try reflexivity.
  rewrite !baseMerge_fold.
  apply wf_obj in Hwf as [Hnd Hall].
  destruct (isObject object) eqn:Eo.
  2:{ by rewrite !(fold_primitive sps object Eo). }
  destruct object as [| | | | |k0 ops]; try discriminate.
  apply fold_fixed. intros [key sv] Hin.
  apply mergeStep_fixed; [done|done|].
  apply IHn.
  - pose proof (size_in key sv sps k Hin). lia.
  - rewrite Forall_forall in Hall. apply (Hall (key, sv)). by apply list_elem_of_In.
Qed.

Lemma baseMerge_again object source :
  wf source -> baseMerge (baseMerge object source) source = baseMerge object source.
Proof. intros. by apply (baseMerge_again_size (size source)). Qed.

Lemma merge_idem object source :
  wf source -> merge (merge object source) source = merge object source.
Proof.
  intros Hwf. unfold merge. destruct (truthy source); [by apply baseMerge_again|done].
Qed.

(** Key by key *)
Lemma lookup_prop_Some_in {A} k (ps : list (string * A)) v :
  lookup_prop k ps = Some v -> In (k, v) ps.
Proof.
  induction ps as [|[k0 w] ps IH]; simpl; [discriminate|].
  destruct (String.eqb k0 k) eqn:E.
  - apply String.eqb_eq in E. subst. intros [= ->]. by left.
  - intros H. right. auto.
Qed.

Lemma lookup_prop_None_keys {A} k (ps : list (string * A)) :
  lookup_prop k ps = None -> ~ In k (keys ps).
Proof.
  induction ps as [|[k0 w] ps IH]; simpl; [tauto|].
  destruct (String.eqb k0 k) eqn:E; [discriminate|].
  apply String.eqb_neq in E. intros H [?|?]; [done|]. by apply IH.
Qed.

Lemma prop_fold_in k0 ops sps key sv :
  NoDup (keys sps) ->
  In (key, sv) sps ->
  prop (fold_left mergeStep sps (JObj k0 ops)) key =
    match mergeValue (prop (JObj k0 ops) key) key sv with
    | JUndefined => prop (JObj k0 ops) key
    | val => val
    end.
Proof.
  intros Hnd Hin.
  apply in_split in Hin as [l1 [l2 ->]].
  unfold keys in Hnd. rewrite map_app in Hnd. simpl in Hnd.
  apply NoDup_app in Hnd as [Hnd1 [Hdisj Hnd2]].
  apply NoDup_cons in Hnd2 as [Hni2 _].
  assert (Hni1 : ~ In key (keys l1)).
  { intros Hi. apply (Hdisj key); [by apply list_elem_of_In|left]. }
  assert (Hni2' : ~ In key (keys l2)) by (by rewrite <- list_elem_of_In).
  rewrite fold_left_app. simpl fold_left.
  destruct (fold_other key l1 (JObj k0 ops) Hni1) as [Hp1 Hk1].
  set (O1 := fold_left mergeStep l1 (JObj k0 ops)) in *.
  destruct (fold_other key l2 (mergeStep O1 (key, sv)) Hni2') as [-> _].
  assert (HO1 : exists ps1, O1 = JObj k0 ps1).
  { pose proof (kind_fold l1 (JObj k0 ops)) as Hk. fold O1 in Hk.
    destruct O1; try discriminate. simpl in Hk. injection Hk as ->. eauto. }
  destruct HO1 as [ps1 HO1].
  unfold mergeStep. simpl fst. simpl snd. rewrite Hp1.
  set (val := mergeValue (prop (JObj k0 ops) key) key sv).
  rewrite HO1.
  destruct val eqn:Ev; try (apply prop_amv_same; discriminate).
  unfold assignMergeValue. destruct (has_key (JObj k0 ps1) key) eqn:Ek.
  - by rewrite <- HO1.
  - rewrite prop_assign_same. rewrite <- Hp1, HO1.
    unfold has_key, has_prop in Ek. unfold prop.
    by destruct (lookup_prop key (props (JObj k0 ps1))).
Qed.

Lemma safeKey_plain key v :
  key <> "constructor" -> key <> "__proto__" -> safeKey key v = v.
Proof.
  intros H1 H2. unfold safeKey.
  apply String.eqb_neq in H1, H2. by rewrite H1, H2.
Qed.





(** ** The environment overlay *)

Import Overlays.
Import Fragment.

(** *** Overlays within the model *)

Lemma nat_of_string_of_nat n :
  option_map Nat.of_uint (NilZero.uint_of_string (string_of_nat n)) = Some n.
Proof.
  unfold string_of_nat. pose proof (DecimalNat.Unsigned.of_to n) as H.
  destruct (Nat.to_uint n) eqn:E;
    [simpl in *; by rewrite <- H|..];
    rewrite NilZero.usu by discriminate; simpl option_map; by rewrite H.
Qed.

Lemma string_of_nat_inj n m : string_of_nat n = string_of_nat m -> n = m.
Proof.
  intros H. pose proof (nat_of_string_of_nat n) as Hn.
  rewrite H, nat_of_string_of_nat in Hn. congruence.
Qed.













(** C3.  Applying the same overlay to the result of line 238 a second time
    changes nothing, for every base value and every overlay (an object has
    each of its keys once, which is what [wf] says). *)
Theorem apply_overlay_idempotent (B O : jsval) :
  wf O ->
  Config.apply_overlay (Config.apply_overlay B O) O = Config.apply_overlay B O.
Proof.
  intros Hwf. unfold Config.apply_overlay.
  destruct (isObject O); [by apply merge_idem|done].
Qed.

Lemma apply_overlay_idempotent_witness :
  wf one_scope /\
  Config.apply_overlay (Config.apply_overlay two_scopes one_scope) one_scope
    = Config.apply_overlay two_scopes one_scope.
Proof.
  assert (H : wf one_scope).
  { simpl. repeat split; apply (bool_decide_unpack _); vm_compute; exact Logic.I. }
  split; [exact H|]. exact (apply_overlay_idempotent two_scopes one_scope H).
Defined.

(** ** The store *)

Lemma path_eqb_eq p q : path_eqb p q = true <-> p = q.
Proof.
  revert q. induction p as [|a p IH]; intros [|b q]; simpl; try (split; congruence).
  rewrite andb_true_iff, String.eqb_eq, IH. split; [intros [-> ->]; done|intros [= -> ->]; done].
Qed.

Lemma site_eqb_eq a b : site_eqb a b = true <-> a = b.
Proof. destruct a, b; simpl; split; congruence. Qed.

Lemma loc_eqb_eq a b : loc_eqb a b = true <-> a = b.
Proof.
  destruct a, b; simpl; try (split; congruence).
  - rewrite path_eqb_eq. split; congruence.
  - rewrite site_eqb_eq. split; congruence.
Qed.

Lemma loc_eqb_refl a : loc_eqb a a = true.
Proof. by apply loc_eqb_eq. Qed.

Lemma loc_eqb_sym a b : loc_eqb a b = loc_eqb b a.
Proof.
  destruct (loc_eqb a b) eqn:E1, (loc_eqb b a) eqn:E2; auto.
  - apply loc_eqb_eq in E1. subst. by rewrite loc_eqb_refl in E2.
  - apply loc_eqb_eq in E2. subst. by rewrite loc_eqb_refl in E1.
Qed.

Lemma lookup_val_set key key' x ps :
  lookup_val key (set_prop key' x ps) = if String.eqb key' key then x else lookup_val key ps.
Proof.
  unfold lookup_val. destruct (String.eqb key' key) eqn:E.
  - apply String.eqb_eq in E. subst. by rewrite lookup_set_same.
  - apply String.eqb_neq in E. by rewrite lookup_set_other.
Qed.

(** update *)
Lemma entries_update h l o v :
  entries (update h l o) v = if same_ref v (VRef l) then oprops o else entries h v.
Proof. destruct v; simpl; try done. unfold update. by destruct (loc_eqb l0 l). Qed.

Lemma alive_update h l o v : alive (update h l o) v = same_ref v (VRef l) || alive h v.
Proof. destruct v; simpl; try done. unfold update. by destruct (loc_eqb l0 l). Qed.

Lemma kind_at_update h l o v :
  kind_at (update h l o) v = if same_ref v (VRef l) then Some (kind o) else kind_at h v.
Proof. destruct v; simpl; try done. unfold update. by destruct (loc_eqb l0 l). Qed.

(** put *)
Lemma alive_put h v k x w : alive (put h v k x) w = alive h w.
Proof.
  destruct v; simpl; try done. destruct (h l) eqn:E; [|done].
  rewrite alive_update. destruct w; simpl; try done.
  destruct (loc_eqb l0 l) eqn:El; [|done]. apply loc_eqb_eq in El. subst. by rewrite E.
Qed.

Lemma kind_at_put h v k x w : kind_at (put h v k x) w = kind_at h w.
Proof.
  destruct v; simpl; try done. destruct (h l) eqn:E; [|done].
  rewrite kind_at_update. destruct w; simpl; try done.
  destruct (loc_eqb l0 l) eqn:El; [|done]. apply loc_eqb_eq in El. subst. by rewrite E.
Qed.

Lemma entries_put h v k x w :
  entries (put h v k x) w =
    if same_ref v w && alive h v then set_prop k x (entries h w) else entries h w.
Proof.
  destruct v; simpl; try done. destruct (h l) eqn:E; [|by rewrite andb_false_r].
  rewrite entries_update, andb_true_r. destruct w; simpl; try done.
  rewrite (loc_eqb_sym l0 l).
  destruct (loc_eqb l l0) eqn:El; [|done]. apply loc_eqb_eq in El. subst. by rewrite E.
Qed.

Lemma lookup_put h v k x w key :
  lookup_val key (entries (put h v k x) w) =
    if same_ref v w && alive h v && String.eqb k key then x
    else lookup_val key (entries h w).
Proof.
  rewrite entries_put. destruct (same_ref v w && alive h v); simpl; [|done].
  apply lookup_val_set.
Qed.

(** load *)
Lemma node_nil t : node t [] = t.
Proof. reflexivity. Qed.

Lemma subtree_app t p q :
  subtree t (p ++ q) = match subtree t p with Some w => subtree w q | None => None end.
Proof.
  revert t. induction p as [|k p IH]; intros t; simpl; [done|].
  destruct (lookup_prop k (props t)); [apply IH|done].
Qed.

Lemma node_snoc t p k : node t (p ++ [k]) = prop (node t p) k.
Proof.
  unfold node. rewrite subtree_app. destruct (subtree t p) as [w|]; simpl; [|done].
  unfold prop. by destruct (lookup_prop k (props w)).
Qed.

Lemma load_config t p : load t (LConfig p) = object_at p (node t p).
Proof. unfold load, node. by destruct (subtree t p). Qed.

Lemma lookup_prop_map {A B} (f : string -> A -> B) key ps :
  lookup_prop key (map (fun kv => (fst kv, f (fst kv) (snd kv))) ps) =
  option_map (f key) (lookup_prop key ps).
Proof.
  induction ps as [|[k v] ps IH]; simpl; [done|].
  destruct (String.eqb k key) eqn:E; [|done]. apply String.eqb_eq in E. by subst.
Qed.

Lemma alive_load t p : alive (load t) (tval t p) = isObject (node t p).
Proof.
  unfold tval. destruct (node t p) eqn:E; try reflexivity.
  unfold alive, val_at. by rewrite load_config, E.
Qed.

Lemma nullish_tval t p : nullish (tval t p) = is_nullish (node t p).
Proof. unfold tval. by destruct (node t p). Qed.

Lemma same_ref_tval t p q :
  same_ref (tval t p) (tval t q) = path_eqb p q && isObject (node t p).
Proof.
  unfold tval. destruct (path_eqb p q) eqn:E.
  - apply path_eqb_eq in E. subst q. destruct (node t p); simpl; try done.
    by apply path_eqb_eq.
  - destruct (node t p), (node t q); simpl; try done.
Qed.

Lemma same_ref_tval_site t p s : same_ref (tval t p) (VRef (LSite s)) = false.
Proof. unfold tval. by destruct (node t p). Qed.

Lemma same_ref_site_tval t p s : same_ref (VRef (LSite s)) (tval t p) = false.
Proof. unfold tval. by destruct (node t p). Qed.

(** The characters of a string have index keys only. *)
Lemma is_index_string_of_nat n : is_index (string_of_nat n) = true.
Proof.
  unfold is_index, string_of_nat.
  destruct (Nat.to_uint n) eqn:E; [reflexivity|..];
    (rewrite NilZero.usu by discriminate);
    rewrite <- E, DecimalNat.Unsigned.of_to; apply String.eqb_refl.
Qed.

Lemma lookup_chars key s : forall i,
  is_index key = false -> lookup_prop key (chars_from i s) = None.
Proof.
  induction s as [|c s IH]; intros i Hk; simpl; [done|].
  destruct (String.eqb (string_of_nat i) key) eqn:E; [|by apply IH].
  apply String.eqb_eq in E. subst key. by rewrite is_index_string_of_nat in Hk.
Qed.

Lemma lookup_load t p key :
  is_index key = false ->
  lookup_val key (entries (load t) (tval t p)) = tval t (p ++ [key]).
Proof.
  intros Hk. unfold tval at 2. rewrite node_snoc. unfold tval, lookup_val.
  destruct (node t p) as [| | | | |k ps] eqn:E; try reflexivity.
  - simpl. by rewrite lookup_chars.
  - unfold val_at at 1. unfold entries. rewrite load_config, E. cbn [object_at oprops].
    rewrite (lookup_prop_map (fun key w => val_at (p ++ [key]) w)).
    unfold prop. simpl props. by destruct (lookup_prop key ps).
Qed.

(** ** One step of the monad *)

Lemma bind_bind {A B C} (m : M A) (f : A -> M B) (g : B -> M C) st :
  bind (bind m f) g st = bind m (fun x => bind (f x) g) st.
Proof. unfold bind. destruct (m st) as [[a st']|]; reflexivity. Qed.

Lemma bind_ret {A B} (a : A) (f : A -> M B) st : bind (ret a) f st = f a st.
Proof. reflexivity. Qed.

Lemma bind_alloc {A} s o (f : val -> M A) st :
  bind (alloc s o) f st =
  f (VRef (LSite s)) {| st_heap := update (st_heap st) (LSite s) o; st_trace := st_trace st |}.
Proof. reflexivity. Qed.

Lemma bind_emit {A} e (f : unit -> M A) st :
  bind (emit e) f st = f tt {| st_heap := st_heap st; st_trace := st_trace st ++ [e] |}.
Proof. reflexivity. Qed.

Lemma bind_own_entries {A} v (f : list (string * val) -> M A) st :
  bind (own_entries v) f st = f (entries (st_heap st) v) st.
Proof. reflexivity. Qed.

Lemma bind_construct {A} s cls args (f : val -> M A) st :
  bind (construct s cls args) f st =
  f (VRef (LSite s))
    {| st_heap := update (st_heap st) (LSite s) (instance cls);
       st_trace := st_trace st ++ [ENew cls (LSite s) args] |}.
Proof. reflexivity. Qed.

Lemma bind_factory {A} s callee k args (f : val -> M A) st :
  bind (factory s callee k args) f st =
  f (VRef (LSite s))
    {| st_heap := update (st_heap st) (LSite s) {| kind := HData k; oprops := [] |};
       st_trace := st_trace st ++ [ECall callee (LSite s) args] |}.
Proof. reflexivity. Qed.

Lemma config_tval tree : isObject tree = true -> config = tval tree [].
Proof. intros H. unfold tval. rewrite node_nil. destruct tree; try discriminate. reflexivity. Qed.


Lemma isObject_not_nullish v : isObject v = true -> is_nullish v = false.
Proof. by destruct v. Qed.

Section Holds.
Variable tree : jsval.

Lemma holds_load : holds tree [] (load tree).
Proof.
  repeat split; intros. apply alive_load.
Qed.

Lemma holds_update_site w h s o :
  holds tree w h -> holds tree w (update h (LSite s) o).
Proof.
  intros (Ha & Hk & Hl & He). repeat split; intros.
  - by rewrite alive_update, same_ref_tval_site, Ha.
  - by rewrite kind_at_update, same_ref_tval_site, Hk.
  - by rewrite entries_update, same_ref_tval_site, Hl.
  - by rewrite entries_update, same_ref_tval_site, He.
Qed.

Lemma holds_put_site w h s k x :
  holds tree w h -> holds tree w (put h (VRef (LSite s)) k x).
Proof.
  intros (Ha & Hk & Hl & He). repeat split; intros.
  - by rewrite alive_put, Ha.
  - by rewrite kind_at_put, Hk.
  - by rewrite lookup_put, same_ref_site_tval, Hl.
  - by rewrite entries_put, same_ref_site_tval, He.
Qed.

Lemma holds_put w h q k x :
  holds tree w h -> holds tree ((q, k, x) :: w) (put h (tval tree q) k x).
Proof.
  intros (Ha & Hk & Hl & He). repeat split; intros.
  - by rewrite alive_put, Ha.
  - by rewrite kind_at_put, Hk.
  - rewrite lookup_put, same_ref_tval, Ha, Hl. simpl.
    destruct (path_eqb q path), (String.eqb k key), (isObject (node tree q)); reflexivity.
  - simpl in H. apply andb_true_iff in H as [Hq Hu].
    rewrite entries_put, same_ref_tval, He by done.
    apply negb_true_iff in Hq. by rewrite Hq.
Qed.

End Holds.

(** ** The augmentation, line by line *)

Lemma bind_read' {A} v k (f : val -> M A) st :
  bind (read v k) f st =
  if nullish v then TypeError else f (lookup_val k (entries (st_heap st) v)) st.
Proof. unfold bind, read, heap_read. by destruct (nullish v). Qed.

Lemma bind_write' {A} v k x (f : unit -> M A) st :
  bind (write v k x) f st =
  if nullish v then TypeError
  else f tt {| st_heap := put (st_heap st) v k x; st_trace := st_trace st |}.
Proof. unfold bind, write, heap_write. by destruct (nullish v). Qed.

Lemma run_write' v k x st :
  write v k x st =
  if nullish v then TypeError
  else Ok (tt, {| st_heap := put (st_heap st) v k x; st_trace := st_trace st |}).
Proof. unfold write, heap_write. by destruct (nullish v). Qed.

Lemma run_use t stage plugin st :
  kind_at (st_heap st) (VRef t) = Some (HData (KInstance "Mail")) ->
  use (VRef t) stage plugin st =
  Ok (tt, {| st_heap := st_heap st; st_trace := st_trace st ++ [EUse t stage plugin] |}).
Proof.
  unfold use, kind_at.
  destruct (st_heap st t) as [[k ps]|]; [|discriminate].
  simpl. intros [= ->]. reflexivity.
Qed.

Section Steps.
Variable tree : jsval.

Lemma bind_read_tree {A} w h tr p k (f : val -> M A) :
  holds tree w h ->
  is_index k = false ->
  is_nullish (node tree p) = false ->
  bind (read (tval tree p) k) f {| st_heap := h; st_trace := tr |} =
  f (written tree w p k (tval tree (p ++ [k]))) {| st_heap := h; st_trace := tr |}.
Proof.
  intros (_ & _ & Hl & _) Hk Hn. rewrite bind_read', nullish_tval, Hn. simpl.
  by rewrite Hl, lookup_load.
Qed.

Lemma bind_write_tree {A} h tr p k x (f : unit -> M A) :
  is_nullish (node tree p) = false ->
  bind (write (tval tree p) k x) f {| st_heap := h; st_trace := tr |} =
  f tt {| st_heap := put h (tval tree p) k x; st_trace := tr |}.
Proof. intros Hn. by rewrite bind_write', nullish_tval, Hn. Qed.

Lemma run_write_tree h tr p k x :
  is_nullish (node tree p) = false ->
  write (tval tree p) k x {| st_heap := h; st_trace := tr |} =
  Ok (tt, {| st_heap := put h (tval tree p) k x; st_trace := tr |}).
Proof. intros Hn. by rewrite run_write', nullish_tval, Hn. Qed.

Lemma bind_entries_tree {A} w h tr p (f : list (string * val) -> M A) :
  holds tree w h ->
  untouched w p = true ->
  bind (own_entries (tval tree p)) f {| st_heap := h; st_trace := tr |} =
  f (entries (load tree) (tval tree p)) {| st_heap := h; st_trace := tr |}.
Proof. intros (_ & _ & _ & He) Hu. rewrite bind_own_entries. simpl. by rewrite He. Qed.
End Steps.

Ltac solve_holds :=
  repeat first
    [ eassumption
    | apply holds_load
    | apply holds_update_site
    | apply holds_put_site
    | apply holds_put ].

Ltac simp_written :=
  cbn [written slots_translate_filter slots_global_config slots_transport
       slots_copy_views slots_share_i18n slots_final
       path_eqb String.eqb Ascii.eqb Bool.eqb andb app fst snd];
  repeat match goal with
    | H : isObject (node _ _) = _ |- _ => rewrite H
    end;
  cbn [andb].

Ltac step :=
  lazymatch goal with
  | |- bind (bind _ _) _ _ = _ => rewrite bind_bind
  | |- bind (ret _) _ _ = _ => rewrite bind_ret
  | |- bind (read (tval _ _) _) _ _ = _ =>
      erewrite bind_read_tree; [|solve_holds|reflexivity|eassumption]; simp_written
  | |- bind (write (tval _ _) _ _) _ _ = _ =>
      rewrite bind_write_tree by eassumption
  | |- bind (read _ _) _ _ = _ => rewrite bind_read'; cbn [nullish]
  | |- bind (write _ _ _) _ _ = _ => rewrite bind_write'; cbn [nullish st_heap st_trace]
  | |- bind (alloc _ _) _ _ = _ => rewrite bind_alloc; cbn [st_heap st_trace]
  | |- bind (construct _ _ _) _ _ = _ => rewrite bind_construct; cbn [st_heap st_trace]
  | |- bind (factory _ _ _ _) _ _ = _ => rewrite bind_factory; cbn [st_heap st_trace]
  | |- bind (own_entries (tval _ _)) _ _ = _ =>
      erewrite bind_entries_tree; [|solve_holds|reflexivity]
  | |- bind (emit _) _ _ = _ => rewrite bind_emit; cbn [st_heap st_trace]
  | |- write (tval _ _) _ _ _ = _ => rewrite run_write_tree by eassumption
  | |- write _ _ _ _ = _ => rewrite run_write'; cbn [nullish st_heap st_trace]
  end.

Lemma parent_is_object t p k :
  is_nullish (node t (p ++ [k])) = false -> isObject (node t p) = true.
Proof.
  rewrite node_snoc. unfold prop. by destruct (node t p).
Qed.

Ltac start tree Htree :=
  rewrite ?(config_tval tree Htree);
  assert (is_nullish (node tree []) = false)
    by (rewrite node_nil; by apply isObject_not_nullish).

Ltac finish tree Htree := rewrite <- ?(config_tval tree Htree); reflexivity.

Section Run.
Variable I : Config.inputs.
Variable tree : jsval.
Hypothesis Htree : isObject tree = true.

Lemma holds_after_translate_filter :
  holds tree (slots_translate_filter) (after_translate_filter tree).
Proof. unfold after_translate_filter, slots_translate_filter. solve_holds. Qed.

Lemma holds_after_global_config :
  holds tree (slots_global_config) (after_global_config tree).
Proof.
  unfold after_global_config, slots_global_config.
  pose proof holds_after_translate_filter. solve_holds.
Qed.

Lemma holds_after_transport :
  holds tree (slots_transport) (after_transport I tree).
Proof.
  unfold after_transport, slots_transport.
  pose proof holds_after_global_config. solve_holds.
Qed.

Lemma holds_after_plugin :
  holds tree (slots_transport) (after_plugin I tree).
Proof.
  unfold after_plugin. pose proof holds_after_transport. solve_holds.
Qed.

Lemma holds_after_copy_views :
  holds tree (slots_copy_views) (after_copy_views I tree).
Proof.
  unfold after_copy_views, slots_copy_views.
  pose proof holds_after_plugin. solve_holds.
Qed.

Lemma holds_after_email_root :
  holds tree (slots_copy_views) (after_email_root I tree).
Proof.
  unfold after_email_root. pose proof holds_after_copy_views. solve_holds.
Qed.

Lemma holds_after_share_i18n :
  holds tree (slots_share_i18n tree) (after_share_i18n I tree).
Proof.
  unfold after_share_i18n, slots_share_i18n.
  pose proof holds_after_email_root. solve_holds.
Qed.

Lemma holds_final : holds tree (slots_final tree) (final_heap I tree).
Proof.
  unfold final_heap, slots_final.
  pose proof holds_after_share_i18n. solve_holds.
Qed.

(** Lines 247-254. *)
Lemma run_add_translate_filter :
  add_translate_filter (initial tree) =
  if is_nullish (node tree ["views"; "locals"; "filters"]) then TypeError
  else Ok (VRef (LSite SLogger),
           {| st_heap := after_translate_filter tree;
              st_trace := trace_translate_filter tree |}).
Proof.
  unfold add_translate_filter, initial. start tree Htree.
  repeat step.
  destruct (is_nullish (node tree ["views"])) eqn:HV.
  { rewrite bind_read', nullish_tval, HV.
    destruct (is_nullish (node tree ["views"; "locals"; "filters"])) eqn:HF; [done|].
    apply (parent_is_object tree ["views"; "locals"]), isObject_not_nullish in HF.
    apply (parent_is_object tree ["views"]), isObject_not_nullish in HF. congruence. }
  repeat step.
  destruct (is_nullish (node tree ["views"; "locals"])) eqn:HL.
  { rewrite bind_read', nullish_tval, HL.
    destruct (is_nullish (node tree ["views"; "locals"; "filters"])) eqn:HF; [done|].
    apply (parent_is_object tree ["views"; "locals"]), isObject_not_nullish in HF.
    congruence. }
  repeat step.
  destruct (is_nullish (node tree ["views"; "locals"; "filters"])) eqn:HF.
  { by rewrite bind_write', nullish_tval, HF. }
  repeat step. finish tree Htree.
Qed.

(** Line 258. *)
Lemma run_add_global_config tr :
  is_nullish (node tree ["views"; "locals"; "filters"]) = false ->
  add_global_config {| st_heap := after_translate_filter tree; st_trace := tr |} =
  Ok (tt, {| st_heap := after_global_config tree; st_trace := tr |}).
Proof.
  intros HF.
  assert (HL := parent_is_object tree ["views"; "locals"] _ HF).
  assert (HV := parent_is_object tree ["views"] _ (isObject_not_nullish _ HL)).
  apply isObject_not_nullish in HL, HV.
  pose proof holds_after_translate_filter.
  unfold add_global_config. start tree Htree.
  repeat step. finish tree Htree.
Qed.

(** Lines 261-271. *)
Lemma run_add_transport tr :
  add_transport I (VRef (LSite SLogger))
    {| st_heap := after_global_config tree; st_trace := tr |} =
  if is_nullish (node tree ["email"]) then TypeError
  else Ok (tt, {| st_heap := after_transport I tree;
                  st_trace := tr ++
                    [ECall "nodemailer.createTransport" (LSite STransport)
                       [VRef (LSite STransportOptions)]] |}).
Proof.
  pose proof holds_after_global_config.
  unfold add_transport. start tree Htree.
  repeat step.
  destruct (is_nullish (node tree ["email"])) eqn:HE.
  { by rewrite run_write', nullish_tval, HE. }
  repeat step. finish tree Htree.
Qed.

(** Lines 272-278. *)
Lemma run_add_plugin tr :
  is_nullish (node tree ["email"]) = false ->
  add_plugin I {| st_heap := after_transport I tree; st_trace := tr |} =
  if isObject (node tree ["email"]) then
    Ok (tt, {| st_heap := after_plugin I tree;
               st_trace := (tr ++ [ECall "base64ToS3" (LSite SPlugin)
                                     [VRef (LSite SPluginOptions)]]) ++
                           [EUse (LSite STransport) "compile" (VRef (LSite SPlugin))] |})
  else TypeError.
Proof.
  intros HE'.
  pose proof holds_after_transport.
  unfold add_plugin. start tree Htree.
  destruct (isObject (node tree ["email"])) eqn:HE.
  - repeat step.
    rewrite run_use; [reflexivity|].
    cbn [st_heap]. rewrite !kind_at_update. cbn [same_ref loc_eqb site_eqb].
    unfold after_transport. rewrite kind_at_put, kind_at_update.
    cbn [same_ref loc_eqb site_eqb]. reflexivity.
  - repeat step.
    assert (Hn : is_nullish (node tree ["email"; "transport"]) = true).
    { change ["email"; "transport"] with (["email"] ++ ["transport"]).
      rewrite node_snoc. destruct (node tree ["email"]); try discriminate; reflexivity. }
    by rewrite bind_read', nullish_tval, Hn.
Qed.

(** Line 281. *)
Lemma run_copy_views tr :
  isObject (node tree ["email"]) = true ->
  copy_views {| st_heap := after_plugin I tree; st_trace := tr |} =
  Ok (tt, {| st_heap := after_copy_views I tree; st_trace := tr |}).
Proof.
  intros HE. pose proof (isObject_not_nullish _ HE).
  pose proof holds_after_plugin.
  unfold copy_views. start tree Htree.
  repeat step. finish tree Htree.
Qed.

(** Line 282. *)
Lemma run_set_email_root tr :
  isObject (node tree ["email"]) = true ->
  set_email_root I {| st_heap := after_copy_views I tree; st_trace := tr |} =
  Ok (tt, {| st_heap := after_email_root I tree; st_trace := tr |}).
Proof.
  intros HE. pose proof (isObject_not_nullish _ HE).
  pose proof holds_after_copy_views.
  unfold set_email_root. start tree Htree.
  repeat step. finish tree Htree.
Qed.

(** Line 283. *)
Lemma run_share_i18n tr :
  isObject (node tree ["email"]) = true ->
  share_i18n {| st_heap := after_email_root I tree; st_trace := tr |} =
  Ok (tt, {| st_heap := after_share_i18n I tree; st_trace := tr |}).
Proof.
  intros HE. pose proof (isObject_not_nullish _ HE).
  pose proof holds_after_email_root.
  unfold share_i18n. start tree Htree.
  repeat step. finish tree Htree.
Qed.

(** Line 284. *)
Lemma run_add_web_resources tr :
  isObject (node tree ["email"]) = true ->
  add_web_resources {| st_heap := after_share_i18n I tree; st_trace := tr |} =
  if is_nullish (node tree ["email"; "juiceResources"]) then TypeError
  else Ok (tt, {| st_heap := final_heap I tree; st_trace := tr |}).
Proof.
  intros HE. pose proof (isObject_not_nullish _ HE).
  pose proof holds_after_share_i18n.
  unfold add_web_resources. start tree Htree.
  repeat step.
  destruct (is_nullish (node tree ["email"; "juiceResources"])) eqn:HJ.
  { by rewrite run_write', nullish_tval, HJ. }
  repeat step. finish tree Htree.
Qed.

(** Lines 247-284 throw unless the configuration is [ready]; otherwise
    they end in [final_state]. *)
Lemma run_augment :
  augment I (initial tree) =
  if ready tree then Ok (tt, final_state I tree) else TypeError.
Proof.
  unfold augment, ready.
  unfold bind at 1. rewrite run_add_translate_filter.
  destruct (is_nullish (node tree ["views"; "locals"; "filters"])) eqn:HF; [done|].
  unfold bind at 1. rewrite (run_add_global_config _ HF).
  unfold bind at 1. rewrite run_add_transport.
  destruct (is_nullish (node tree ["email"])) eqn:HE'.
  { by destruct (node tree ["email"]). }
  unfold bind at 1. rewrite (run_add_plugin _ HE').
  destruct (isObject (node tree ["email"])) eqn:HE; [|done].
  unfold bind at 1. rewrite (run_copy_views _ HE).
  unfold bind at 1. rewrite (run_set_email_root _ HE).
  unfold bind at 1. rewrite (run_share_i18n _ HE).
  rewrite (run_add_web_resources _ HE).
  by destruct (is_nullish (node tree ["email"; "juiceResources"])).
Qed.
End Run.

(** ** From the literal to the exported object *)

Lemma node_undefined p : node JUndefined p = JUndefined.
Proof. by destruct p. Qed.

Lemma node_cons t k rest : node t (k :: rest) = node (prop t k) rest.
Proof.
  unfold node, prop. simpl. destruct (lookup_prop k (props t)); [done|].
  symmetry. apply node_undefined.
Qed.

Lemma isObject_baseMerge o s : isObject (baseMerge o s) = isObject o.
Proof. rewrite !isObject_kind. by rewrite kind_baseMerge. Qed.

Lemma isObject_apply_overlay o s : isObject (Config.apply_overlay o s) = isObject o.
Proof.
  unfold Config.apply_overlay, merge. destruct (isObject s); [|done].
  destruct (truthy s); [apply isObject_baseMerge|done].
Qed.

Section Derived.
Variable I : Config.inputs.

Let merged := Config.merged_config I.
Let auth := prop merged "auth".

Lemma merged_isObject : isObject (Config.merged_config I) = true.
Proof. unfold Config.merged_config. by rewrite isObject_apply_overlay. Qed.

(** The tree that line 247 finds, when lines 241 and 244 did not throw. *)
Lemma derived_config_inv tree :
  Config.derived_config I = Ok tree ->
  is_nullish auth = false /\
  isObject tree = true /\
  prop tree "auth"
    = assign auth "hasThirdPartyProviders" (JBool (some (prop auth "providers"))) /\
  (forall key, key <> "auth" -> key <> "meta" -> prop tree key = prop merged key).
Proof.
  unfold Config.derived_config, Config.derive_providers, rbind. fold merged. fold auth.
  destruct (is_nullish auth) eqn:Hn; [discriminate|]. intros [= <-].
  unfold Config.derive_meta.
  pose proof merged_isObject as Hm. fold merged in Hm.
  destruct merged as [| | | | |k ps] eqn:Em; try discriminate.
  split; [done|]. split; [done|]. split.
  - rewrite prop_assign_other by discriminate. apply prop_assign_same.
  - intros key H1 H2. rewrite prop_assign_other by congruence.
    by rewrite prop_assign_other by congruence.
Qed.

Lemma derived_node tree key rest :
  Config.derived_config I = Ok tree ->
  key <> "auth" -> key <> "meta" ->
  node tree (key :: rest) = node merged (key :: rest).
Proof.
  intros Hd H1 H2. apply derived_config_inv in Hd as (_ & _ & _ & Hp).
  by rewrite !node_cons, Hp.
Qed.

Lemma pipeline_inv st :
  pipeline I = Ok st ->
  exists tree,
    Config.derived_config I = Ok tree /\
    isObject tree = true /\
    ready tree = true /\
    st = final_state I tree.
Proof.
  unfold pipeline, rbind. destruct (Config.derived_config I) as [tree|] eqn:Hd; [|discriminate].
  pose proof (derived_config_inv tree Hd) as (_ & Ht & _).
  rewrite (run_augment I tree Ht).
  destruct (ready tree) eqn:Hr; [|discriminate]. intros [= <-]. eauto.
Qed.

Lemma pipeline_run tree :
  Config.derived_config I = Ok tree ->
  ready tree = true ->
  pipeline I = Ok (final_state I tree).
Proof.
  intros Hd Hr. unfold pipeline, rbind. rewrite Hd.
  pose proof (derived_config_inv tree Hd) as (_ & Ht & _).
  by rewrite (run_augment I tree Ht), Hr.
Qed.
End Derived.

(** Reads in a store that holds the tree. *)
Section Reads.
Variable tree : jsval.

Lemma read_holds w h q k :
  holds tree w h ->
  is_index k = false ->
  heap_read h (tval tree q) k =
    if is_nullish (node tree q) then TypeError
    else Ok (written tree w q k (tval tree (q ++ [k]))).
Proof.
  intros (_ & _ & Hl & _) Hk. unfold heap_read. rewrite nullish_tval.
  destruct (is_nullish (node tree q)); [done|]. by rewrite Hl, lookup_load.
Qed.
End Reads.

(** ** The exported store *)

Lemma ready_inv tree :
  ready tree = true ->
  isObject (node tree ["views"]) = true /\
  isObject (node tree ["views"; "locals"]) = true /\
  is_nullish (node tree ["views"; "locals"; "filters"]) = false /\
  isObject (node tree ["email"]) = true /\
  is_nullish (node tree ["email"; "juiceResources"]) = false.
Proof.
  unfold ready. rewrite !andb_true_iff, !negb_true_iff. intros [[HF HE] HJ].
  pose proof (parent_is_object tree ["views"; "locals"] _ HF) as HL.
  pose proof (parent_is_object tree ["views"] _ (isObject_not_nullish _ HL)) as HV.
  auto.
Qed.

Lemma root_not_nullish tree : isObject tree = true -> is_nullish (node tree []) = false.
Proof. intros H. rewrite node_nil. by apply isObject_not_nullish. Qed.

(** One step of [get_path] in a store that holds the tree. *)
Ltac walk_step tree W :=
  cbn [get_path];
  rewrite (read_holds tree _ _ _ _ W) by reflexivity;
  repeat match goal with
    | H : is_nullish (node _ _) = false |- _ => rewrite H
    end;
  cbn [rbind]; simp_written.

Ltac walk tree W := repeat walk_step tree W; cbn [get_path].

Ltac use_ready Hready :=
  let HV := fresh "HV" in let HL := fresh "HL" in let HF := fresh "HF" in
  let HE := fresh "HE" in let HJ := fresh "HJ" in
  destruct (ready_inv _ Hready) as (HV & HL & HF & HE & HJ);
  pose proof (isObject_not_nullish _ HV);
  pose proof (isObject_not_nullish _ HL);
  pose proof (isObject_not_nullish _ HE).

Lemma lookup_val_in k (ps : list (string * val)) w :
  lookup_val k ps = w -> w <> VUndefined -> In (k, w) ps.
Proof.
  unfold lookup_val. destruct (lookup_prop k ps) eqn:E; [|congruence].
  intros -> _. by apply lookup_prop_Some_in.
Qed.

Lemma alive_entries h v :
  alive h v = true -> exists l o, v = VRef l /\ h l = Some o /\ entries h v = oprops o.
Proof.
  destruct v; try discriminate. simpl. destruct (h l) eqn:E; [|discriminate]. eauto.
Qed.

Lemma traverse_props_none fuel h (ps : list (string * val)) :
  fold_left
    (fun acc kv =>
       match acc, traverse fuel h (snd kv) with
       | Some n, Some m => Some (n + m)
       | _, _ => None
       end) ps None = None.
Proof. induction ps; simpl; auto. Qed.

Lemma traverse_through fuel h v k w :
  alive h v = true ->
  lookup_val k (entries h v) = w ->
  w <> VUndefined ->
  traverse fuel h w = None ->
  traverse (S fuel) h v = None.
Proof.
  intros Ha Hl Hw Hn. destruct (alive_entries h v Ha) as (l & o & -> & Ho & He).
  rewrite He in Hl. apply lookup_val_in in Hl; [|done].
  cbn [traverse]. rewrite Ho. clear He Ho. generalize (Some 1).
  induction (oprops o) as [|[k0 w0] ps IH]; [done|].
  intros acc. cbn [fold_left snd]. destruct Hl as [[= -> ->]|Hin].
  - destruct acc as [n|]; [|apply traverse_props_none].
    destruct (traverse fuel h w); [discriminate|]. apply traverse_props_none.
  - by apply IH.
Qed.

Lemma represents_child h v t k w :
  represents h v t ->
  alive h v = true ->
  lookup_val k (entries h v) = w ->
  w <> VUndefined ->
  exists t', represents h w t' /\ size t' < size t.
Proof.
  intros Hr Ha Hl Hw. destruct (alive_entries h v Ha) as (l & o & -> & Ho & He).
  rewrite He in Hl. apply lookup_val_in in Hl; [|done].
  destruct t as [| | | | |kk ps]; try discriminate.
  simpl in Hr. destruct Hr as (l' & o' & [= <-] & Ho' & Hall).
  rewrite Ho in Ho'. injection Ho' as <-.
  revert Hall Hl. generalize (oprops o) as vs.
  induction ps as [|[key t0] ps IH]; intros [|[key' x] vs]; simpl; try tauto.
  intros (-> & Hx & Hrest) [[= -> ->]|Hin].
  - exists t0. split; [done|]. lia.
  - destruct (IH vs Hrest Hin) as (t' & Ht' & Hs). exists t'. split; [done|].
    simpl in Hs. lia.
Qed.

Lemma entries_put_tval_site tree h q k x s :
  entries (put h (tval tree q) k x) (VRef (LSite s)) = entries h (VRef (LSite s)).
Proof. by rewrite entries_put, same_ref_tval_site. Qed.

Lemma entries_put_other h l l' k x :
  loc_eqb l l' = false ->
  entries (put h (VRef l) k x) (VRef l') = entries h (VRef l').
Proof. intros H. rewrite entries_put. simpl. by rewrite H. Qed.

Lemma entries_put_same h l k x :
  alive h (VRef l) = true ->
  entries (put h (VRef l) k x) (VRef l) = set_prop k x (entries h (VRef l)).
Proof. intros H. rewrite entries_put, H. simpl. by rewrite loc_eqb_refl. Qed.

Ltac site_simp :=
  repeat first
    [ rewrite entries_put_tval_site
    | rewrite entries_put_other by reflexivity
    | rewrite entries_put_same
    | rewrite entries_update
    | rewrite kind_at_put
    | rewrite kind_at_update
    | progress cbn [same_ref loc_eqb site_eqb andb orb] ].

Section Final.
Variable I : Config.inputs.
Variable tree : jsval.
Hypothesis Htree : isObject tree = true.
Hypothesis Hready : ready tree = true.

Lemma final_self_reference :
  get_path (final_heap I tree) config ["views"; "locals"; "config"] = Ok config.
Proof.
  use_ready Hready. pose proof (root_not_nullish tree Htree).
  pose proof (holds_final I tree) as W.
  rewrite (config_tval tree Htree) at 1.
  walk tree W. reflexivity.
Qed.


(** The three objects of the cycle. *)
Lemma cycle_edges :
  let h := final_heap I tree in
  let views := VRef (LConfig ["views"]) in
  let locals := VRef (LConfig ["views"; "locals"]) in
  alive h config = true /\ lookup_val "views" (entries h config) = views /\
  alive h views = true /\ lookup_val "locals" (entries h views) = locals /\
  alive h locals = true /\ lookup_val "config" (entries h locals) = config.
Proof.
  use_ready Hready. pose proof (root_not_nullish tree Htree).
  destruct (holds_final I tree) as (Ha & _ & Hl & _).
  assert (Hc : config = tval tree []) by (by apply config_tval).
  assert (Hv : VRef (LConfig ["views"]) = tval tree ["views"]).
  { unfold tval. by destruct (node tree ["views"]). }
  assert (Hlo : VRef (LConfig ["views"; "locals"]) = tval tree ["views"; "locals"]).
  { unfold tval. by destruct (node tree ["views"; "locals"]). }
  cbn zeta. rewrite Hc at 1 2. rewrite Hv at 1 2 3. rewrite Hlo at 1 2 3.
  rewrite !Ha, !Hl, !lookup_load by reflexivity. simp_written.
  rewrite node_nil, Htree. rewrite <- Hv, <- Hlo. repeat split.
Qed.

Lemma final_traverse_diverges fuel :
  traverse fuel (final_heap I tree) config = None /\
  traverse fuel (final_heap I tree) (VRef (LConfig ["views"])) = None /\
  traverse fuel (final_heap I tree) (VRef (LConfig ["views"; "locals"])) = None.
Proof.
  destruct cycle_edges as (A1 & E1 & A2 & E2 & A3 & E3).
  induction fuel as [|fuel (IH1 & IH2 & IH3)]; [done|].
  split; [|split].
  - by apply (traverse_through fuel _ _ "views" _ A1 E1).
  - by apply (traverse_through fuel _ _ "locals" _ A2 E2).
  - by apply (traverse_through fuel _ _ "config" _ A3 E3).
Qed.

Lemma final_not_a_tree t : ~ represents (final_heap I tree) config t.
Proof.
  destruct cycle_edges as (A1 & E1 & A2 & E2 & A3 & E3).
  remember (size t) as n eqn:Hn. revert t Hn.
  induction n as [n IH] using lt_wf_ind. intros t -> Hr.
  destruct (represents_child _ _ _ "views" _ Hr A1 E1) as (t1 & H1 & S1); [done|].
  destruct (represents_child _ _ _ "locals" _ H1 A2 E2) as (t2 & H2 & S2); [done|].
  destruct (represents_child _ _ _ "config" _ H2 A3 E3) as (t3 & H3 & S3); [done|].
  apply (IH (size t3)) with t3; [lia|done|done].
Qed.

(** *** Objects created at the sites *)

Lemma final_email_views_entries :
  entries (final_heap I tree) (VRef (LSite SEmailViews)) =
  set_prop "root" (emails_dir I) (entries (load tree) (tval tree ["views"])).
Proof.
  unfold final_heap, after_share_i18n, after_email_root, after_copy_views.
  site_simp; [reflexivity|].
  rewrite alive_put, alive_update. reflexivity.
Qed.

Lemma final_transport_options_entries :
  entries (final_heap I tree) (VRef (LSite STransportOptions)) =
  [ ("service", VStr "postmark");
    ("auth", VRef (LSite STransportAuth));
    ("logger", VRef (LSite SLogger)) ].
Proof.
  unfold final_heap, after_share_i18n, after_email_root, after_copy_views,
    after_plugin, after_transport.
  site_simp. reflexivity.
Qed.



Lemma final_i18n_options_entries :
  entries (final_heap I tree) (VRef (LSite SI18nOptions)) =
  set_prop "logger" (VRef (LSite SLogger)) (entries (load tree) (tval tree ["i18n"])).
Proof.
  unfold final_heap, after_share_i18n, after_email_root, after_copy_views,
    after_plugin, after_transport, after_global_config, after_translate_filter.
  site_simp. reflexivity.
Qed.

Lemma final_translate_kind :
  kind_at (final_heap I tree) (VRef (LSite STranslate))
  = Some (HTranslate (VRef (LSite SI18n))).
Proof.
  unfold final_heap, after_share_i18n, after_email_root, after_copy_views,
    after_plugin, after_transport, after_global_config, after_translate_filter.
  site_simp. reflexivity.
Qed.
End Final.

(** ** The exported configuration *)

(** C9.  In the exported store the field views.locals.config of the
    configuration is the configuration itself, so no finite tree represents
    it, and a traversal that follows every reference runs out of any fuel. *)
Theorem exported_config_is_cyclic (I : Config.inputs) (st : state) :
  pipeline I = Ok st ->
  get_path (st_heap st) config ["views"; "locals"; "config"] = Ok config /\
  (forall t, ~ represents (st_heap st) config t) /\
  (forall fuel, traverse fuel (st_heap st) config = None).
Proof.
  intros Hp. apply pipeline_inv in Hp as (tree & Hd & Ht & Hr & ->).
  cbn [final_state st_heap]. split; [|split].
  - by apply final_self_reference.
  - intros t. by apply final_not_a_tree.
  - intros fuel. by apply final_traverse_diverges.
Qed.

Section EmailViews.
Variable I : Config.inputs.
Variable tree : jsval.
Hypothesis Htree : isObject tree = true.
Hypothesis Hready : ready tree = true.

Let h := final_heap I tree.


Lemma final_email_views_prop key :
  get_path h config ["email"; "views"; key] =
  Ok (if String.eqb "root" key then emails_dir I
      else lookup_val key (entries (load tree) (tval tree ["views"]))).
Proof using Htree Hready.
  use_ready Hready. pose proof (root_not_nullish tree Htree).
  pose proof (holds_final I tree) as W. subst h.
  rewrite (config_tval tree Htree) at 1.
  do 2 walk_step tree W. cbn [get_path rbind]. unfold heap_read. cbn [nullish rbind].
  by rewrite final_email_views_entries, lookup_val_set.
Qed.




End EmailViews.


Lemma read_ref h l key :
  heap_read h (VRef l) key = Ok (lookup_val key (entries h (VRef l))).
Proof. reflexivity. Qed.


Lemma call_translate api_t h f engine args :
  kind_at h f = Some (HTranslate engine) ->
  call api_t h f args = Ok (api_t engine args).
Proof.
  unfold kind_at, call. destruct f; try discriminate.
  destruct (h l) as [[k ps]|]; [|discriminate]. simpl. by intros [= ->].
Qed.

(** C7, as the code has it.  The module constructs the engine from the
    phrases and the directory of the merged [i18n] block.  When
    [views.locals.filters] is an object after the merge, as it is in the
    literal, the exported configuration holds at
    [views.locals.filters.translate] a function which, on every argument
    list, returns what the translate function of that engine returns on
    these arguments.  When an overlay has put a scalar there, the write of
    line 252 is dropped and nothing can be read at that path. *)
Theorem translate_filter_forwards (I : Config.inputs) (st : state) :
  pipeline I = Ok st ->
  let h := st_heap st in
  let merged := Config.merged_config I in
  let engine := LSite SI18n in
  let options := VRef (LSite SI18nOptions) in
  let filters := node merged ["views"; "locals"; "filters"] in
  In (ENew "I18N" engine [options]) (st_trace st) /\
  get_path h options ["phrases"] = Ok (tval merged ["i18n"; "phrases"]) /\
  get_path h options ["directory"] = Ok (tval merged ["i18n"; "directory"]) /\
  (isObject filters = true ->
   exists f,
     get_path h config ["views"; "locals"; "filters"; "translate"] = Ok f /\
     (forall (api_t : translator) (args : list val),
        call api_t h f args = Ok (api_t (VRef engine) args))) /\
  (isObject filters = false ->
   get_path h config ["views"; "locals"; "filters"; "translate"] = Ok VUndefined).
Proof.
  intros Hp. apply pipeline_inv in Hp as (tree & Hd & Ht & Hr & ->).
  cbn [final_state st_heap st_trace]. cbn zeta.
  use_ready Hr. pose proof (root_not_nullish tree Ht).
  pose proof (holds_final I tree) as W.
  rewrite <- (derived_node I tree "views" ["locals"; "filters"] Hd) by discriminate.
  assert (Hn : forall key, tval tree ["i18n"; key] = tval (Config.merged_config I) ["i18n"; key]).
  { intros key. unfold tval.
    by rewrite (derived_node I tree "i18n" [key] Hd) by discriminate. }
  split; [|split; [|split; [|split]]].
  - right. left. reflexivity.
  - cbn [get_path]. rewrite read_ref, final_i18n_options_entries, lookup_val_set.
    cbn [String.eqb Ascii.eqb Bool.eqb rbind]. rewrite lookup_load by reflexivity.
    cbn [app]. by rewrite Hn.
  - cbn [get_path]. rewrite read_ref, final_i18n_options_entries, lookup_val_set.
    cbn [String.eqb Ascii.eqb Bool.eqb rbind]. rewrite lookup_load by reflexivity.
    cbn [app]. by rewrite Hn.
  - intros Hf. exists (VRef (LSite STranslate)). split.
    + rewrite (config_tval tree Ht). walk tree W. reflexivity.
    + intros api_t args. apply call_translate, final_translate_kind.
  - intros Hf. rewrite (config_tval tree Ht). walk tree W. unfold tval.
    change ["views"; "locals"; "filters"; "translate"]
      with (["views"; "locals"; "filters"] ++ ["translate"]).
    rewrite node_snoc. by destruct (node tree ["views"; "locals"; "filters"]).
Qed.






Section Frame.
Variable tree : jsval.



End Frame.





Lemma derived_meta I tree :
  Config.derived_config I = Ok tree ->
  exists before,
    prop tree "meta" = Config.meta I before /\
    (forall key, key <> "auth" -> prop before key = prop (Config.merged_config I) key).
Proof.
  unfold Config.derived_config, Config.derive_providers, rbind.
  destruct (is_nullish _); [discriminate|]. intros [= <-].
  set (auth := prop (Config.merged_config I) "auth").
  exists (assign (Config.merged_config I) "auth"
            (assign auth "hasThirdPartyProviders" (JBool (some (prop auth "providers"))))).
  split.
  - unfold Config.derive_meta.
    pose proof (merged_isObject I) as Hm.
    destruct (Config.merged_config I) as [| | | | |k ps]; try discriminate.
    apply prop_assign_same.
  - intros key Hk. by rewrite prop_assign_other by congruence.
Qed.

Lemma lookup_prop_map_snd {A B} (g : A -> B) key (ps : list (string * A)) :
  lookup_prop key (map (fun p => (fst p, g (snd p))) ps) = option_map g (lookup_prop key ps).
Proof. apply (lookup_prop_map (fun _ v => g v)). Qed.

(** C5.  With the metadata helper as [MetaSpec] describes it, a page "home"
    whose title template is "{app} — Home" and the application name "Lad",
    the exported configuration has the title "Lad — Home" at meta.home.title;
    and the lookup of a page without an entry returns the record made from the
    fallback templates, an object, instead of failing. *)
Theorem seo_meta (I : Config.inputs) (st : state)
    (pages : list (string * MetaSpec.templates)) (fallback : MetaSpec.templates)
    (description : string) :
  Config.meta I = MetaSpec.meta pages ->
  lookup_prop "home" pages = Some ("{app} — Home", description) ->
  node (Config.merged_config I) ["appName"] = JStr "Lad" ->
  pipeline I = Ok st ->
  get_path (st_heap st) config ["meta"; "home"; "title"] = Ok (VStr "Lad — Home") /\
  exists tree,
    Config.derived_config I = Ok tree /\
    forall page,
      lookup_prop page pages = None ->
      MetaSpec.page_meta fallback tree page = MetaSpec.record "Lad" fallback /\
      isObject (MetaSpec.page_meta fallback tree page) = true.
Proof.
  intros Hmeta Hhome Happ Hp. apply pipeline_inv in Hp as (tree & Hd & Ht & Hr & ->).
  cbn [final_state st_heap].
  rewrite node_cons, node_nil in Happ.
  destruct (derived_meta I tree Hd) as (before & Hm & Hb).
  pose proof (derived_config_inv I tree Hd) as (_ & _ & _ & Hk).
  assert (Hname : MetaSpec.app_name before = "Lad").
  { unfold MetaSpec.app_name. by rewrite Hb, Happ by discriminate. }
  assert (Hname' : MetaSpec.app_name tree = "Lad").
  { unfold MetaSpec.app_name. by rewrite Hk, Happ by discriminate. }
  rewrite Hmeta in Hm. unfold MetaSpec.meta in Hm. rewrite Hname in Hm.
  split.
  - assert (Hn1 : is_nullish (node tree ["meta"]) = false).
    { by rewrite node_cons, node_nil, Hm. }
    assert (Hhome' : node tree ["meta"; "home"] =
                     MetaSpec.record "Lad" ("{app} — Home", description)).
    { rewrite !node_cons, node_nil, Hm. unfold prop, Config.obj. simpl props.
      by rewrite lookup_prop_map_snd, Hhome. }
    assert (Hn2 : is_nullish (node tree ["meta"; "home"]) = false) by (by rewrite Hhome').
    assert (Htitle : tval tree ["meta"; "home"; "title"] = VStr "Lad — Home").
    { unfold tval.
      change ["meta"; "home"; "title"] with (["meta"; "home"] ++ ["title"]).
      rewrite node_snoc, Hhome'. reflexivity. }
    pose proof (root_not_nullish tree Ht).
    pose proof (holds_final I tree) as W.
    rewrite (config_tval tree Ht). walk tree W. by rewrite Htitle.
  - exists tree. split; [done|]. intros page Hpage.
    unfold MetaSpec.page_meta. rewrite Hm. unfold Config.obj. simpl props.
    rewrite lookup_prop_map_snd, Hpage. simpl. by rewrite Hname'.
Qed.

Section Base.
Variable I : Config.inputs.

Lemma base_auth : prop (Config.base_config I) "auth" = Config.auth_literal I.
Proof. reflexivity. Qed.

Lemma base_filters :
  node (Config.base_config I) ["views"; "locals"; "filters"] = Config.obj [].
Proof.
  rewrite !node_cons, node_nil.
  change (prop (prop (Config.base_config I) "views") "locals") with (Config.views_locals I).
  unfold Config.views_locals, Config.obj, prop. simpl props.
  by rewrite lookup_set_same.
Qed.

Lemma base_email : isObject (node (Config.base_config I) ["email"]) = true.
Proof. reflexivity. Qed.

Lemma base_juice :
  is_nullish (node (Config.base_config I) ["email"; "juiceResources"]) = false.
Proof. reflexivity. Qed.
End Base.

(** C2.  When [environments] has no object for the current environment
    name, the configuration after line 238 is the literal of lines 18-235
    unchanged, and the whole pipeline runs to its end without an error. *)
Theorem absent_overlay_is_identity (I : Config.inputs) :
  isObject (Config.overlay I) = false ->
  Config.merged_config I = Config.base_config I /\
  exists st, pipeline I = Ok st.
Proof.
  intros Ho.
  assert (Hm : Config.merged_config I = Config.base_config I).
  { unfold Config.merged_config, Config.apply_overlay. by rewrite Ho. }
  split; [done|].
  destruct (Config.derived_config I) as [tree|] eqn:Hd.
  2:{ unfold Config.derived_config, Config.derive_providers in Hd.
      rewrite Hm, base_auth in Hd. discriminate. }
  exists (final_state I tree). apply pipeline_run; [done|].
  unfold ready.
  rewrite (derived_node I tree "views" ["locals"; "filters"] Hd) by discriminate.
  rewrite (derived_node I tree "email" [] Hd) by discriminate.
  rewrite (derived_node I tree "email" ["juiceResources"] Hd) by discriminate.
  rewrite Hm, base_filters, base_email, base_juice. reflexivity.
Qed.

(** ** Sample deployments *)

Lemma sample_derived : Config.derived_config sample = Ok (tree_of sample).
Proof. vm_compute. reflexivity. Qed.

Lemma sample_runs : pipeline sample = Ok (state_of sample).
Proof. apply pipeline_run; [exact sample_derived|]. vm_compute. reflexivity. Qed.



Lemma sample_has_no_overlay : isObject (Config.overlay sample) = false.
Proof. reflexivity. Qed.

(** C2 at the sample deployment, which has no overlay. *)
Lemma absent_overlay_is_identity_witness :
  isObject (Config.overlay sample) = false /\
  Config.merged_config sample = Config.base_config sample /\
  exists st, pipeline sample = Ok st.
Proof.
  split; [exact sample_has_no_overlay|].
  exact (absent_overlay_is_identity sample sample_has_no_overlay).
Defined.






(** C5 at the sample deployment and its page templates. *)
Lemma sample_app_name : node (Config.merged_config sample) ["appName"] = JStr "Lad".
Proof. vm_compute. reflexivity. Qed.

Lemma seo_meta_witness :
  Config.meta sample = MetaSpec.meta sample_pages /\
  lookup_prop "home" sample_pages = Some ("{app} — Home", "{app} is up") /\
  node (Config.merged_config sample) ["appName"] = JStr "Lad" /\
  pipeline sample = Ok (state_of sample) /\
  get_path (st_heap (state_of sample)) config ["meta"; "home"; "title"]
    = Ok (VStr "Lad — Home") /\
  exists tree,
    Config.derived_config sample = Ok tree /\
    forall page,
      lookup_prop page sample_pages = None ->
      MetaSpec.page_meta ("{app}", "{app}") tree page = MetaSpec.record "Lad" ("{app}", "{app}") /\
      isObject (MetaSpec.page_meta ("{app}", "{app}") tree page) = true.
Proof.
  split; [reflexivity|]. split; [reflexivity|]. split; [exact sample_app_name|].
  split; [exact sample_runs|].
  exact (seo_meta sample (state_of sample) sample_pages ("{app}", "{app}") "{app} is up"
           eq_refl eq_refl sample_app_name sample_runs).
Defined.


(** C7, as the code has it, at the sample deployment. *)
Lemma translate_filter_forwards_witness :
  pipeline sample = Ok (state_of sample) /\
  let h := st_heap (state_of sample) in
  let merged := Config.merged_config sample in
  let engine := LSite SI18n in
  let options := VRef (LSite SI18nOptions) in
  let filters := node merged ["views"; "locals"; "filters"] in
  In (ENew "I18N" engine [options]) (st_trace (state_of sample)) /\
  get_path h options ["phrases"] = Ok (tval merged ["i18n"; "phrases"]) /\
  get_path h options ["directory"] = Ok (tval merged ["i18n"; "directory"]) /\
  (isObject filters = true ->
   exists f,
     get_path h config ["views"; "locals"; "filters"; "translate"] = Ok f /\
     (forall (api_t : translator) (args : list val),
        call api_t h f args = Ok (api_t (VRef engine) args))) /\
  (isObject filters = false ->
   get_path h config ["views"; "locals"; "filters"; "translate"] = Ok VUndefined).
Proof.
  split; [exact sample_runs|].
  exact (translate_filter_forwards sample (state_of sample) sample_runs).
Defined.

Lemma sample_filters_off_runs :
  pipeline sample_filters_off = Ok (state_of sample_filters_off).
Proof. apply pipeline_run; vm_compute; reflexivity. Qed.

(** C7, as the specification states it, fails: with the overlay
    [filters_off] the module loads, and the configuration holds no function
    at the filter path: the path reads [undefined], which cannot be
    called. *)
Lemma no_translate_on_scalar_filters :
  pipeline sample_filters_off = Ok (state_of sample_filters_off) /\
  get_path (st_heap (state_of sample_filters_off)) config ["views"; "locals"; "filters"]
    = Ok (VBool false) /\
  get_path (st_heap (state_of sample_filters_off)) config
           ["views"; "locals"; "filters"; "translate"] = Ok VUndefined /\
  forall (api_t : translator) (args : list val),
    call api_t (st_heap (state_of sample_filters_off)) VUndefined args = TypeError.
Proof.
  split; [exact sample_filters_off_runs|].
  split; [vm_compute; reflexivity|]. split; [vm_compute; reflexivity|].
  intros api_t args. reflexivity.
Qed.



(** C9 at the sample deployment. *)
Lemma exported_config_is_cyclic_witness :
  pipeline sample = Ok (state_of sample) /\
  get_path (st_heap (state_of sample)) config ["views"; "locals"; "config"] = Ok config /\
  (forall t, ~ represents (st_heap (state_of sample)) config t) /\
  (forall fuel, traverse fuel (st_heap (state_of sample)) config = None).
Proof.
  split; [exact sample_runs|].
  exact (exported_config_is_cyclic sample (state_of sample) sample_runs).
Defined.


(** * Further properties of the module *)

Import Overlays.

(** ** What an overlay can and cannot do *)

Lemma has_key_object o k : has_key o k = true -> isObject o = true.
Proof. by destruct o. Qed.

Lemma prop_has_key o k : prop o k <> JUndefined -> has_key o k = true.
Proof.
  unfold prop, has_key, has_prop. by destruct (lookup_prop k (props o)).
Qed.

Lemma has_key_mergeStep o kv k :
  has_key o k = true -> has_key (mergeStep o kv) k = true.
Proof.
  intros H. unfold mergeStep.
  destruct (String.eqb_spec (fst kv) k) as [->|Hne].
  - pose proof (has_key_object o k H) as Ho. destruct o; try discriminate.
    apply has_key_amv_same.
  - by rewrite has_key_amv_other.
Qed.

Lemma prop_mergeStep_defined o kv k :
  prop o k <> JUndefined -> prop (mergeStep o kv) k <> JUndefined.
Proof.
  intros H. unfold mergeStep.
  destruct (String.eqb_spec (fst kv) k) as [->|Hne].
  - pose proof (prop_has_key o k H) as Hk.
    pose proof (has_key_object o k Hk) as Ho. destruct o as [| | | | |k0 ps]; try discriminate.
    set (v := mergeValue _ _ _).
    assert (Hv : v = JUndefined \/ v <> JUndefined) by (destruct v; auto; right; discriminate).
    destruct Hv as [->|Hv].
    + unfold assignMergeValue. by rewrite Hk.
    + by rewrite prop_amv_same.
  - by rewrite prop_amv_other.
Qed.

Lemma fold_keeps sps : forall o k,
  (has_key o k = true -> has_key (fold_left mergeStep sps o) k = true) /\
  (prop o k <> JUndefined -> prop (fold_left mergeStep sps o) k <> JUndefined).
Proof.
  induction sps as [|kv sps IH]; intros o k; [done|]. simpl. split; intros H.
  - apply IH. by apply has_key_mergeStep.
  - apply IH. by apply prop_mergeStep_defined.
Qed.

Lemma apply_overlay_cases B O :
  Config.apply_overlay B O = B \/
  exists k sps, O = JObj k sps /\ Config.apply_overlay B O = fold_left mergeStep sps B.
Proof.
  unfold Config.apply_overlay, merge.
  destruct O as [| | | | |k sps]; try (by left).
  right. exists k, sps. split; [done|]. cbn [isObject truthy]. apply baseMerge_fold.
Qed.

(** X1.  Line 238 never removes a key: a key of the configuration is
    still a key after the merge, a value that was defined is still defined
    (an overlay value [undefined] is skipped), and the configuration keeps
    its kind. *)
Theorem overlay_keeps_keys (B O : jsval) (key : string) :
  has_key B key = true ->
  has_key (Config.apply_overlay B O) key = true /\
  (prop B key <> JUndefined -> prop (Config.apply_overlay B O) key <> JUndefined) /\
  kind_of (Config.apply_overlay B O) = kind_of B.
Proof.
  intros H. destruct (apply_overlay_cases B O) as [->|(k & sps & -> & ->)]; [done|].
  destruct (fold_keeps sps B key) as [H1 H2]. repeat split; auto.
  apply kind_fold.
Qed.

(** ** Deep paths *)

Lemma node_primitive v path : isObject v = false -> path <> [] -> node v path = JUndefined.
Proof.
  intros Hv Hp. destruct path as [|k rest]; [done|].
  unfold node. cbn [subtree]. by destruct v.
Qed.

Lemma wf_in k sps key sv : wf (JObj k sps) -> In (key, sv) sps -> wf sv.
Proof.
  intros H Hin. apply wf_obj in H as [_ H].
  rewrite List.Forall_forall in H. apply (H (key, sv) Hin).
Qed.

Lemma prop_in o key : prop o key <> JUndefined -> In (key, prop o key) (props o).
Proof.
  unfold prop. destruct (lookup_prop key (props o)) eqn:E; [|done].
  intros _. by apply lookup_prop_Some_in.
Qed.

(** The value that the loop of [baseMerge] leaves at a key of the source. *)
Lemma prop_baseMerge_in B k sps key :
  isObject B = true ->
  NoDup (keys sps) ->
  prop (JObj k sps) key <> JUndefined ->
  prop (baseMerge B (JObj k sps)) key =
    match mergeValue (prop B key) key (prop (JObj k sps) key) with
    | JUndefined => prop B key
    | val => val
    end.
Proof.
  intros HB Hnd Hp. destruct B as [| | | | |kb bps]; try discriminate.
  rewrite baseMerge_fold. apply prop_fold_in; [done|].
  apply (prop_in (JObj k sps) key Hp).
Qed.

Lemma isObject_mergeTarget ov sv nv : mergeTarget ov sv = Some nv -> isObject nv = true.
Proof.
  intros H. destruct (mergeTarget_kind ov sv nv H) as [[_ H1]|(_ & H1 & _)]; [|done].
  by destruct nv.
Qed.

Lemma overlay_leaf_wins_rec path : forall B O v,
  path <> [] ->
  isObject B = true ->
  wf O ->
  Forall plain_key path ->
  node O path = v ->
  v <> JUndefined -> isPlainObject v = false -> isArray v = false ->
  node (baseMerge B O) path = v.
Proof.
  induction path as [|key rest IH]; intros B O v Hne HB Hwf Hkeys Hv Hdef Hpl Har; [done|].
  inversion Hkeys as [|? ? [Hk1 Hk2] Hrest]; subst.
  rewrite node_cons. rewrite node_cons in Hdef, Hpl, Har |- *.
  assert (Hsv : prop O key <> JUndefined).
  { intros E. rewrite E, node_undefined in Hdef. done. }
  destruct O as [| | | | |ko sps]; try done.
  destruct Hwf as [Hnd Hsub]. 
  assert (Hwfsv : wf (prop (JObj ko sps) key)).
  { apply (wf_in ko sps key); [by split|]. by apply (prop_in (JObj ko sps)). }
  rewrite (prop_baseMerge_in B ko sps key HB Hnd Hsv).
  set (sv := prop (JObj ko sps) key) in *.
  unfold mergeValue. rewrite !safeKey_plain by done.
  destruct rest as [|k2 rest2].
  - rewrite node_nil in *.
    destruct sv as [| | | | |[] ?] eqn:E; try done.
  - destruct (isObject sv) eqn:Eo.
    2:{ exfalso. apply Hdef. by apply node_primitive. }
    destruct (mergeTarget (prop B key) sv) as [nv|] eqn:Em.
    + pose proof (isObject_mergeTarget _ _ _ Em) as Hnv.
      pose proof (isObject_baseMerge nv sv) as Hb. rewrite Hnv in Hb.
      assert (node (baseMerge nv sv) (k2 :: rest2) = node sv (k2 :: rest2)) as <-.
      { apply IH; try done. }
      by destruct (baseMerge nv sv).
    + by destruct sv.
Qed.


Lemma mergeTarget_in_place b o : merged_in_place b o = true -> mergeTarget b o = Some b.
Proof.
  unfold merged_in_place. intros H. apply orb_true_iff in H as [H|H].
  - apply andb_true_iff in H as [H H3]. apply andb_true_iff in H as [H1 H2].
    destruct o as [| | | | |[] ?]; try discriminate.
    cbn [mergeTarget]. apply negb_true_iff in H3. by rewrite H2, H3.
  - apply andb_true_iff in H as [H1 H2].
    destruct o as [| | | | |[] ?]; try discriminate.
    cbn [mergeTarget]. by rewrite H2.
Qed.

Lemma merged_in_place_objects b o :
  merged_in_place b o = true -> isObject b = true /\ isObject o = true.
Proof.
  unfold merged_in_place. intros H. apply orb_true_iff in H as [H|H].
  - apply andb_true_iff in H as [H H3]. apply andb_true_iff in H as [H1 H2].
    split; [done|]. by destruct o.
  - apply andb_true_iff in H as [H1 H2]. split; [by destruct b as [| | | | |[] ?]|by destruct o].
Qed.

Lemma prop_baseMerge_absent B O key :
  isObject B = true ->
  wf O ->
  prop O key = JUndefined ->
  prop (baseMerge B O) key = prop B key.
Proof.
  intros HB Hwf Hp. destruct O as [| | | | |ko sps]; try done.
  rewrite baseMerge_fold. destruct Hwf as [Hnd _].
  destruct (lookup_prop key sps) as [sv|] eqn:E.
  - assert (sv = JUndefined) as -> by (unfold prop in Hp; simpl in Hp; by rewrite E in Hp).
    apply lookup_prop_Some_in in E.
    destruct B as [| | | | |kb bps]; try discriminate.
    rewrite (prop_fold_in kb bps sps key JUndefined Hnd E). reflexivity.
  - apply lookup_prop_None_keys in E. by destruct (fold_other key sps B E).
Qed.



Lemma prop_baseMerge_in_place B O key :
  isObject B = true ->
  wf O ->
  plain_key key ->
  merged_in_place (prop B key) (prop O key) = true ->
  prop (baseMerge B O) key = baseMerge (prop B key) (prop O key).
Proof.
  intros HB Hwf [Hk1 Hk2] H1.
  destruct (merged_in_place_objects _ _ H1) as [Hb Ho].
  assert (Hsv : prop O key <> JUndefined) by (by destruct (prop O key)).
  destruct O as [| | | | |ko sps]; try done.
  destruct Hwf as [Hnd _].
  rewrite (prop_baseMerge_in B ko sps key HB Hnd Hsv).
  unfold mergeValue. rewrite Ho, !safeKey_plain by done.
  rewrite (mergeTarget_in_place _ _ H1).
  pose proof (isObject_baseMerge (prop B key) (prop (JObj ko sps) key)) as Hm.
  rewrite Hb in Hm. by destruct (baseMerge (prop B key) (prop (JObj ko sps) key)).
Qed.

(** ** Arrays under [merge] *)

Lemma array_imap vs : array vs = JObj KArray (imap entry vs).
Proof. reflexivity. Qed.

Lemma set_prop_imap x : forall (l : list jsval) k n,
  n <= length l ->
  set_prop (string_of_nat (k + n)) x (imap (fun i v => entry (k + i) v) l) =
  imap (fun i v => entry (k + i) v) (take n l ++ x :: drop (S n) l).
Proof.
  induction l as [|a l IH]; intros k n Hn.
  - simpl in Hn. assert (n = 0) as -> by lia. reflexivity.
  - destruct n as [|n].
    + cbn [take drop app imap set_prop entry fst]. rewrite String.eqb_refl. 
      rewrite drop_0. reflexivity.
    + cbn [take drop app imap set_prop entry fst].
      replace (k + 0) with k by lia.
      destruct (String.eqb_spec (string_of_nat k) (string_of_nat (k + S n))) as [E|_].
      { apply string_of_nat_inj in E. lia. }
      f_equal.
      assert (Hext : forall (l' : list jsval),
                imap ((fun i v => entry (k + i) v) ∘ S) l' =
                imap (fun i v => entry (S k + i) v) l').
      { intros l'. apply imap_ext. intros i y _. simpl. f_equal. lia. }
      rewrite !Hext. replace (k + S n) with (S k + n) by lia.
      apply IH. simpl in Hn. lia.
Qed.

Lemma set_prop_array x (l : list jsval) n :
  n <= length l ->
  set_prop (string_of_nat n) x (imap entry l) = imap entry (take n l ++ x :: drop (S n) l).
Proof. intros H. apply (set_prop_imap x l 0 n H). Qed.

Lemma mergeStep_scalar (l : list jsval) n x :
  scalar_value x ->
  n <= length l ->
  mergeStep (array l) (entry n x) = array (take n l ++ x :: drop (S n) l).
Proof.
  intros [Hx Hd] Hn. unfold mergeStep, mergeValue. cbn [fst snd entry]. rewrite Hx.
  rewrite !array_imap.
  unfold assignMergeValue. destruct x; try done; cbn [assign]; by rewrite set_prop_array.
Qed.

Lemma merge_arrays_rec os : forall (done bs : list jsval),
  Forall scalar_value os ->
  fold_left mergeStep (imap (fun i v => entry (length done + i) v) os)
            (array (done ++ drop (length done) bs))
  = array (done ++ os ++ drop (length done + length os) bs).
Proof.
  induction os as [|x os IH]; intros done bs Hs.
  - cbn [imap fold_left app length]. by rewrite Nat.add_0_r.
  - inversion Hs as [|? ? Hx Hos]; subst.
    cbn [imap fold_left]. replace (length done + 0) with (length done) by lia.
    rewrite mergeStep_scalar; [|done|].
    2:{ rewrite length_app, length_drop. apply Nat.le_add_r. }
    rewrite take_app_length.
    replace (S (length done)) with (length done + 1) by lia.
    rewrite drop_app_add, drop_drop.
    specialize (IH (done ++ [x]) bs Hos).
    rewrite length_app in IH. cbn [length] in IH.
    rewrite <- !app_assoc in IH. cbn [app] in IH.
    rewrite (imap_ext _ (fun i v => entry (length done + 1 + i) v)).
    2:{ intros i y _. simpl. f_equal. lia. }
    cbn [length app].
    replace (length done + S (length os)) with (length done + 1 + length os) by lia.
    exact IH.
Qed.

Lemma baseMerge_arrays (bs os : list jsval) :
  Forall scalar_value os ->
  baseMerge (array bs) (array os) = array (os ++ drop (length os) bs).
Proof.
  intros Hs. rewrite (array_imap os), baseMerge_fold.
  apply (merge_arrays_rec os [] bs Hs).
Qed.

(** X4.  An overlay array of scalars written over a base array replaces
    the elements index by index and keeps the base elements at the indices
    beyond its length: the overlay can lengthen an array but not shorten
    it. *)
Theorem overlay_array_by_index (B O : jsval) (key : string) (bs os : list jsval) :
  isObject B = true ->
  isObject O = true ->
  wf O ->
  plain_key key ->
  prop B key = array bs ->
  prop O key = array os ->
  Forall scalar_value os ->
  prop (Config.apply_overlay B O) key = array (os ++ drop (length os) bs).
Proof.
  intros HB HO Hwf Hkey Hb Ho Hs.
  unfold Config.apply_overlay, merge. rewrite HO.
  destruct O as [| | | | |ko sps] eqn:E; try discriminate. cbn [truthy]. rewrite <- E in *.
  rewrite prop_baseMerge_in_place; try done.
  - rewrite Hb, Ho. by apply baseMerge_arrays.
  - by rewrite Hb, Ho.
Qed.

(** ** When the module throws *)

Lemma derived_config_ok I :
  is_nullish (node (Config.merged_config I) ["auth"]) = false ->
  exists tree, Config.derived_config I = Ok tree.
Proof.
  rewrite node_cons, node_nil. intros H.
  unfold Config.derived_config, Config.derive_providers. rewrite H. cbn [rbind]. by eexists.
Qed.

Lemma ready_merged I tree :
  Config.derived_config I = Ok tree ->
  ready tree =
    negb (is_nullish (node (Config.merged_config I) ["views"; "locals"; "filters"])) &&
    isObject (node (Config.merged_config I) ["email"]) &&
    negb (is_nullish (node (Config.merged_config I) ["email"; "juiceResources"])).
Proof.
  intros Hd. unfold ready.
  rewrite (derived_node I tree "views" ["locals"; "filters"] Hd) by discriminate.
  rewrite (derived_node I tree "email" [] Hd) by discriminate.
  by rewrite (derived_node I tree "email" ["juiceResources"] Hd) by discriminate.
Qed.

Lemma loads_inv I st :
  pipeline I = Ok st ->
  is_nullish (node (Config.merged_config I) ["auth"]) = false /\
  is_nullish (node (Config.merged_config I) ["views"; "locals"; "filters"]) = false /\
  isObject (node (Config.merged_config I) ["email"]) = true /\
  is_nullish (node (Config.merged_config I) ["email"; "juiceResources"]) = false.
Proof.
  intros Hp. apply pipeline_inv in Hp as (tree & Hd & Ht & Hr & ->).
  pose proof (derived_config_inv I tree Hd) as (Hna & _).
  rewrite (ready_merged I tree Hd) in Hr.
  apply andb_true_iff in Hr as [Hr H3]. apply andb_true_iff in Hr as [H1 H2].
  apply negb_true_iff in H1, H3.
  rewrite node_cons, node_nil. done.
Qed.

(** X5.  The property accesses of lines 241-284 raise no TypeError
    exactly when, after the merge, [auth], [views.locals.filters] and
    [email.juiceResources] are neither [null] nor [undefined] and [email] is
    an object. *)
Theorem module_loads_iff (I : Config.inputs) :
  (exists st, pipeline I = Ok st) <->
  is_nullish (node (Config.merged_config I) ["auth"]) = false /\
  is_nullish (node (Config.merged_config I) ["views"; "locals"; "filters"]) = false /\
  isObject (node (Config.merged_config I) ["email"]) = true /\
  is_nullish (node (Config.merged_config I) ["email"; "juiceResources"]) = false.
Proof.
  split.
  - intros [st Hp]. by apply (loads_inv I st).
  - intros (Ha & H1 & H2 & H3).
    destruct (derived_config_ok I Ha) as [tree Hd].
    exists (final_state I tree). apply pipeline_run; [done|].
    rewrite (ready_merged I tree Hd), H1, H2, H3. reflexivity.
Qed.

Lemma node_app t p q : node t (p ++ q) = node (node t p) q.
Proof.
  revert t. induction p as [|k p IH]; intros t; [by rewrite node_nil|].
  cbn [app]. by rewrite !node_cons, IH.
Qed.

(** X6.  An overlay that sets one of the blocks that lines 241-284 reach
    into to [null] makes the module throw a TypeError: [null] overwrites the
    block and the next access into it fails. *)
Theorem overlay_null_throws (I : Config.inputs) (path : list string) :
  wf (Config.overlay I) ->
  In path required_blocks ->
  node (Config.overlay I) path = JNull ->
  pipeline I = TypeError.
Proof.
  intros Hwf Hin Hnull.
  assert (HO : isObject (Config.overlay I) = true).
  { destruct (Config.overlay I) eqn:E; try done;
      rewrite node_primitive in Hnull; try done;
      intros ->; by repeat destruct Hin as [?|Hin]. }
  assert (Hm : node (Config.merged_config I) path = JNull).
  { unfold Config.merged_config, Config.apply_overlay, merge. rewrite HO.
    destruct (Config.overlay I) eqn:E; try discriminate. cbn [truthy].
    assert (Hkeys : path <> [] /\ Forall plain_key path).
    { unfold required_blocks in Hin. cbn [In] in Hin.
      repeat (destruct Hin as [<-|Hin];
              [split; [done|repeat constructor; discriminate]|]). done. }
    destruct Hkeys as [Hne Hkeys].
    by apply overlay_leaf_wins_rec. }
  destruct (pipeline I) as [st|] eqn:Hp; [|done]. exfalso.
  destruct (loads_inv I st Hp) as (H1 & H2 & H3 & H4).
  unfold required_blocks in Hin. cbn [In] in Hin.
  destruct Hin as [<-|[<-|[<-|[<-|[<-|[<-|[]]]]]]].
  - by rewrite Hm in H1.
  - change ["views"; "locals"; "filters"] with (["views"] ++ ["locals"; "filters"]) in H2.
    by rewrite node_app, Hm in H2.
  - change ["views"; "locals"; "filters"] with (["views"; "locals"] ++ ["filters"]) in H2.
    by rewrite node_app, Hm in H2.
  - by rewrite Hm in H2.
  - by rewrite Hm in H3.
  - by rewrite Hm in H4.
Qed.

(** ** The provider flag, for any providers *)

Lemma final_flag I tree :
  Config.derived_config I = Ok tree ->
  isObject tree = true ->
  ready tree = true ->
  isObject (node (Config.merged_config I) ["auth"]) = true ->
  get_path (final_heap I tree) config ["auth"; "hasThirdPartyProviders"] =
    Ok (VBool (some (node (Config.merged_config I) ["auth"; "providers"]))).
Proof.
  intros Hd Ht Hr Hobj.
  pose proof (derived_config_inv I tree Hd) as (Hna & _ & Hauth & _).
  rewrite !node_cons, !node_nil in *.
  set (auth := prop (Config.merged_config I) "auth") in *.
  assert (Hnode : node tree ["auth"] = prop tree "auth") by (by rewrite node_cons, node_nil).
  assert (Hnn : is_nullish (node tree ["auth"]) = false).
  { rewrite Hnode, Hauth. by destruct auth. }
  pose proof (root_not_nullish tree Ht).
  pose proof (holds_final I tree) as W.
  rewrite (config_tval tree Ht). walk tree W.
  unfold tval. rewrite !node_cons, node_nil, Hauth.
  destruct auth as [| | | | |k ps]; try discriminate.
  by rewrite prop_assign_same.
Qed.

Lemma some_object ps :
  lookup_prop "length" ps = None -> some (Config.obj ps) = existsb truthy (map snd ps).
Proof.
  intros H. unfold some, Config.obj, isArrayLike, length_of. by rewrite H.
Qed.

Lemma some_nullish v : is_nullish v = true -> some v = false.
Proof. by destruct v. Qed.

(** X7.  When [auth] is an object after the merge,
    [auth.hasThirdPartyProviders] is a boolean in every case: [false] when
    [auth.providers] is [null] or [undefined], and for a plain object without
    a [length] the disjunction of the truthiness of all of its values, those
    of providers an overlay added included. *)
Theorem provider_flag_any (I : Config.inputs) (st : state) :
  pipeline I = Ok st ->
  isObject (node (Config.merged_config I) ["auth"]) = true ->
  let providers := node (Config.merged_config I) ["auth"; "providers"] in
  let flag := get_path (st_heap st) config ["auth"; "hasThirdPartyProviders"] in
  (exists b, flag = Ok (VBool b)) /\
  (is_nullish providers = true -> flag = Ok (VBool false)) /\
  (forall ps, providers = Config.obj ps -> lookup_prop "length" ps = None ->
     flag = Ok (VBool (existsb truthy (map snd ps)))).
Proof.
  intros Hp Hobj. apply pipeline_inv in Hp as (tree & Hd & Ht & Hr & ->).
  cbn [final_state st_heap]. cbn zeta.
  rewrite (final_flag I tree Hd Ht Hr Hobj). split; [by eexists|]. split.
  - intros Hn. by rewrite some_nullish.
  - intros ps -> Hl. by rewrite some_object.
Qed.

(** ** A write on a primitive *)

(** X8.  When [views.locals.filters] is a scalar after the merge, the
    write of line 252 is dropped: the module still loads, the scalar stays,
    and no translate filter can be read back. *)
Theorem translate_filter_dropped (I : Config.inputs) (st : state) :
  pipeline I = Ok st ->
  isObject (node (Config.merged_config I) ["views"; "locals"; "filters"]) = false ->
  let h := st_heap st in
  get_path h config ["views"; "locals"; "filters"]
    = Ok (tval (Config.merged_config I) ["views"; "locals"; "filters"]) /\
  get_path h config ["views"; "locals"; "filters"; "translate"] = Ok VUndefined.
Proof.
  intros Hp Hf. apply pipeline_inv in Hp as (tree & Hd & Ht & Hr & ->).
  cbn [final_state st_heap]. cbn zeta.
  use_ready Hr. pose proof (root_not_nullish tree Ht).
  pose proof (holds_final I tree) as W.
  assert (Hn : node tree ["views"; "locals"; "filters"]
               = node (Config.merged_config I) ["views"; "locals"; "filters"]).
  { by rewrite (derived_node I tree "views" ["locals"; "filters"] Hd) by discriminate. }
  rewrite <- Hn in Hf.
  assert (Hv : tval tree ["views"; "locals"; "filters"]
               = tval (Config.merged_config I) ["views"; "locals"; "filters"]).
  { unfold tval. rewrite Hn. by destruct (node (Config.merged_config I) _). }
  rewrite (config_tval tree Ht). split.
  - walk tree W. by rewrite Hv.
  - walk tree W. unfold tval.
    change ["views"; "locals"; "filters"; "translate"]
      with (["views"; "locals"; "filters"] ++ ["translate"]).
    rewrite node_snoc. by destruct (node tree ["views"; "locals"; "filters"]).
Qed.

(** ** The two i18n blocks *)

Section I18n.
Variable I : Config.inputs.
Variable tree : jsval.
Hypothesis Htree : isObject tree = true.
Hypothesis Hready : ready tree = true.
Hypothesis Hi18n : isObject (node tree ["i18n"]) = true.

Lemma i18n_ref : tval tree ["i18n"] = VRef (LConfig ["i18n"]).
Proof. unfold tval. by destruct (node tree ["i18n"]). Qed.

Lemma final_i18n :
  get_path (final_heap I tree) config ["i18n"] = Ok (VRef (LConfig ["i18n"])) /\
  get_path (final_heap I tree) config ["email"; "i18n"] = Ok (VRef (LConfig ["i18n"])).
Proof.
  use_ready Hready. pose proof (root_not_nullish tree Htree).
  pose proof (holds_final I tree) as W.
  rewrite (config_tval tree Htree). split; walk tree W; by rewrite i18n_ref.
Qed.

Lemma write_through_i18n key x :
  let h' := put (final_heap I tree) (VRef (LConfig ["i18n"])) key x in
  get_path h' config ["i18n"; key] = Ok x /\
  get_path h' config ["email"; "i18n"; key] = Ok x /\
  entries h' (VRef (LSite SI18nOptions))
    = entries (final_heap I tree) (VRef (LSite SI18nOptions)).
Proof.
  use_ready Hready. pose proof (root_not_nullish tree Htree).
  pose proof (isObject_not_nullish _ Hi18n) as Hnn.
  rewrite <- i18n_ref. cbn zeta.
  pose proof (holds_put tree _ _ ["i18n"] key x (holds_final I tree)) as W.
  set (h' := put (final_heap I tree) (tval tree ["i18n"]) key x) in *.
  assert (Hlast : heap_read h' (tval tree ["i18n"]) key = Ok x).
  { destruct W as (_ & _ & Hl & _). unfold heap_read. rewrite nullish_tval, Hnn, Hl.
    cbn [written path_eqb]. rewrite !String.eqb_refl, Hi18n. reflexivity. }
  rewrite (config_tval tree Htree). split; [|split].
  - walk_step tree W. cbn [get_path]. rewrite Hlast. reflexivity.
  - do 2 walk_step tree W. cbn [get_path]. rewrite Hlast. reflexivity.
  - subst h'. apply entries_put_tval_site.
Qed.
End I18n.

(** X9.  After line 283, [email.i18n] and [i18n] are one object: a write
    through [i18n] is read back through [email.i18n].  The options the engine
    was constructed with are a copy, and do not see that write. *)
Theorem email_i18n_is_shared (I : Config.inputs) (st : state) :
  pipeline I = Ok st ->
  isObject (node (Config.merged_config I) ["i18n"]) = true ->
  let h := st_heap st in
  let i18n := VRef (LConfig ["i18n"]) in
  get_path h config ["i18n"] = Ok i18n /\
  get_path h config ["email"; "i18n"] = Ok i18n /\
  (forall key x h',
     heap_write h i18n key x = Ok h' ->
     get_path h' config ["i18n"; key] = Ok x /\
     get_path h' config ["email"; "i18n"; key] = Ok x /\
     get_path h' (VRef (LSite SI18nOptions)) [key]
       = get_path h (VRef (LSite SI18nOptions)) [key]).
Proof.
  intros Hp Hi. apply pipeline_inv in Hp as (tree & Hd & Ht & Hr & ->).
  cbn [final_state st_heap]. cbn zeta.
  rewrite <- (derived_node I tree "i18n" [] Hd) in Hi by discriminate.
  destruct (final_i18n I tree Ht Hr Hi) as [H1 H2].
  split; [done|]. split; [done|].
  intros key x h' Hw.
  assert (h' = put (final_heap I tree) (VRef (LConfig ["i18n"])) key x) as ->.
  { unfold heap_write in Hw. cbn [nullish] in Hw. congruence. }
  destruct (write_through_i18n I tree Ht Hr Hi key x) as (Ha & Hb & Hc).
  split; [done|]. split; [done|].
  cbn [get_path]. by rewrite !read_ref, Hc.
Qed.

(** ** One logger, and the options of the engine *)

Lemma read_tree_any tree w h q key :
  holds tree w h ->
  is_nullish (node tree q) = false ->
  heap_read h (tval tree q) key =
    Ok (written tree w q key (lookup_val key (entries (load tree) (tval tree q)))).
Proof.
  intros (_ & _ & Hl & _) Hn. unfold heap_read. by rewrite nullish_tval, Hn, Hl.
Qed.

(** X10.  One logger serves the whole module: it is constructed from
    [config.logger], and both the options of the engine and the options of
    the transport hold that instance.  Apart from [logger], the options of
    the engine read as the [i18n] block does. *)
Theorem engine_options_snapshot (I : Config.inputs) (st : state) :
  pipeline I = Ok st ->
  isPlainObject (node (Config.merged_config I) ["i18n"]) = true ->
  let h := st_heap st in
  let options := VRef (LSite SI18nOptions) in
  let logger := VRef (LSite SLogger) in
  (exists logger_options,
     get_path h config ["logger"] = Ok logger_options /\
     st_trace st =
       [ ENew "Logger" (LSite SLogger) [logger_options];
         ENew "I18N" (LSite SI18n) [options];
         ECall "nodemailer.createTransport" (LSite STransport)
           [VRef (LSite STransportOptions)];
         ECall "base64ToS3" (LSite SPlugin) [VRef (LSite SPluginOptions)];
         EUse (LSite STransport) "compile" (VRef (LSite SPlugin)) ]) /\
  get_path h options ["logger"] = Ok logger /\
  get_path h (VRef (LSite STransportOptions)) ["logger"] = Ok logger /\
  (forall key, key <> "logger" ->
     get_path h options [key] = get_path h config ["i18n"; key]).
Proof.
  intros Hp Hi. apply pipeline_inv in Hp as (tree & Hd & Ht & Hr & ->).
  cbn [final_state st_heap st_trace]. cbn zeta.
  rewrite <- (derived_node I tree "i18n" [] Hd) in Hi by discriminate.
  assert (Hio : isObject (node tree ["i18n"]) = true) by (by destruct (node tree ["i18n"])).
  pose proof (isObject_not_nullish _ Hio) as Hin.
  use_ready Hr. pose proof (root_not_nullish tree Ht).
  pose proof (holds_final I tree) as W.
  split; [|split; [|split]].
  - exists (tval tree ["logger"]). split; [|reflexivity].
    rewrite (config_tval tree Ht). walk tree W. reflexivity.
  - cbn [get_path]. rewrite read_ref, final_i18n_options_entries, lookup_val_set. reflexivity.
  - cbn [get_path]. rewrite read_ref, final_transport_options_entries. reflexivity.
  - intros key Hk. cbn [get_path].
    rewrite read_ref, final_i18n_options_entries, lookup_val_set.
    destruct (String.eqb_spec "logger" key) as [E|_]; [by subst|].
    rewrite (config_tval tree Ht).
    rewrite (read_holds tree _ _ _ _ W) by reflexivity. rewrite H2. cbn [rbind].
    simp_written. cbn [app].
    rewrite (read_tree_any tree _ _ _ key W Hin). cbn [rbind]. simp_written.
    reflexivity.
Qed.

(** ** The views of the e-mails *)

(** X11.  Line 281 copies every property of [views]: apart from [root],
    each key reads under [email.views] what it reads under [views].  Through
    the shared [locals], the e-mail views lead back to the configuration
    itself and to the translate filter. *)
Theorem email_views_copies_every_key (I : Config.inputs) (st : state) :
  pipeline I = Ok st ->
  isPlainObject (node (Config.merged_config I) ["views"]) = true ->
  let h := st_heap st in
  (forall key, key <> "root" ->
     get_path h config ["email"; "views"; key] = get_path h config ["views"; key]) /\
  get_path h config ["email"; "views"; "locals"; "config"] = Ok config /\
  (isObject (node (Config.merged_config I) ["views"; "locals"; "filters"]) = true ->
   get_path h config ["email"; "views"; "locals"; "filters"; "translate"]
     = Ok (VRef (LSite STranslate))).
Proof.
  intros Hp Hv. apply pipeline_inv in Hp as (tree & Hd & Ht & Hr & ->).
  cbn [final_state st_heap]. cbn zeta.
  rewrite <- (derived_node I tree "views" ["locals"; "filters"] Hd) by discriminate.
  use_ready Hr. pose proof (root_not_nullish tree Ht).
  pose proof (holds_final I tree) as W.
  assert (Hstart : forall rest,
            get_path (final_heap I tree) config ("email" :: "views" :: "locals" :: rest) =
            get_path (final_heap I tree) (tval tree ["views"; "locals"]) rest).
  { intros rest. rewrite (config_tval tree Ht).
    do 2 walk_step tree W. cbn [get_path].
    rewrite read_ref, final_email_views_entries, lookup_val_set.
    cbn [String.eqb Ascii.eqb Bool.eqb]. rewrite lookup_load by reflexivity.
    reflexivity. }
  split; [|split].
  - intros key Hk. rewrite (final_email_views_prop I tree Ht Hr).
    destruct (String.eqb_spec "root" key) as [E|_]; [by subst|].
    rewrite (config_tval tree Ht). walk_step tree W. cbn [get_path].
    rewrite (read_tree_any tree _ _ _ key W H). cbn [rbind]. simp_written. reflexivity.
  - rewrite Hstart. walk tree W. reflexivity.
  - intros Hf. rewrite Hstart. walk tree W. reflexivity.
Qed.

(** ** The exported configuration against the merged one *)








(** ** The web resources of the e-mails *)

Lemma final_web_resources_entries I tree :
  entries (final_heap I tree) (VRef (LSite SWebResources)) =
  [ ("relativeTo", tval tree ["buildDir"]) ].
Proof.
  unfold final_heap. site_simp. reflexivity.
Qed.

(** X13.  Line 284 stores a new object whose [relativeTo] is [buildDir]
    as it is after the merge, so it follows a build directory set by an
    overlay. *)
Theorem web_resources_follow_build_dir (I : Config.inputs) (st : state) :
  pipeline I = Ok st ->
  isObject (node (Config.merged_config I) ["email"; "juiceResources"]) = true ->
  let h := st_heap st in
  get_path h config ["email"; "juiceResources"; "webResources"]
    = Ok (VRef (LSite SWebResources)) /\
  get_path h config ["email"; "juiceResources"; "webResources"; "relativeTo"]
    = get_path h config ["buildDir"] /\
  get_path h config ["buildDir"] = Ok (tval (Config.merged_config I) ["buildDir"]).
Proof.
  intros Hp Hj. apply pipeline_inv in Hp as (tree & Hd & Ht & Hr & ->).
  cbn [final_state st_heap]. cbn zeta.
  rewrite <- (derived_node I tree "email" ["juiceResources"] Hd) in Hj by discriminate.
  use_ready Hr. pose proof (root_not_nullish tree Ht).
  pose proof (holds_final I tree) as W.
  assert (Hb : get_path (final_heap I tree) config ["buildDir"] = Ok (tval tree ["buildDir"])).
  { rewrite (config_tval tree Ht). walk tree W. reflexivity. }
  rewrite Hb. rewrite (config_tval tree Ht). split; [|split].
  - walk tree W. reflexivity.
  - do 3 walk_step tree W. cbn [get_path].
    rewrite read_ref, final_web_resources_entries. reflexivity.
  - unfold tval. by rewrite (derived_node I tree "buildDir" [] Hd) by discriminate.
Qed.

(** ** A provider switched on by the overlay *)

Lemma some_plain_member ps p v :
  prop (Config.obj ps) "length" = JUndefined ->
  prop (Config.obj ps) p = v ->
  truthy v = true ->
  some (Config.obj ps) = true.
Proof.
  unfold prop, Config.obj. cbn [props]. intros Hl Hp Hv.
  unfold some, isArrayLike, length_of.
  assert (isLength (match lookup_prop "length" ps with Some n => n | None => JUndefined end)
          = false) as -> by (by rewrite Hl).
  cbn [andb negb is_nullish].
  destruct (lookup_prop p ps) as [w|] eqn:E; [|subst; done]. subst w.
  apply lookup_prop_Some_in in E.
  apply existsb_exists. exists v. split; [|done].
  apply in_map_iff. by exists (p, v).
Qed.

(** X14.  The flag is derived after the merge: an overlay that sets any
    provider to [true] under [auth.providers] makes
    [auth.hasThirdPartyProviders] true, whatever the environment says. *)
Theorem overlay_enables_provider (I : Config.inputs) (st : state) (p : string) :
  pipeline I = Ok st ->
  wf (Config.overlay I) ->
  isPlainObject (node (Config.overlay I) ["auth"]) = true ->
  isPlainObject (node (Config.overlay I) ["auth"; "providers"]) = true ->
  node (Config.overlay I) ["auth"; "providers"; "length"] = JUndefined ->
  node (Config.overlay I) ["auth"; "providers"; p] = JBool true ->
  plain_key p ->
  get_path (st_heap st) config ["auth"; "hasThirdPartyProviders"] = Ok (VBool true).
Proof.
  intros Hp Hwf Ha Hpr Hlen Hon Hkey.
  apply pipeline_inv in Hp as (tree & Hd & Ht & Hr & ->).
  cbn [final_state st_heap].
  set (O := Config.overlay I) in *.
  assert (HO : isObject O = true).
  { destruct O; try done. }
  rewrite !node_cons, node_nil in Ha. rewrite !node_cons, node_nil in Hpr.
  rewrite !node_cons, node_nil in Hlen. rewrite !node_cons, node_nil in Hon.
  assert (Hm : Config.merged_config I = baseMerge (Config.base_config I) O).
  { unfold Config.merged_config, Config.apply_overlay, merge. fold O. rewrite HO.
    by destruct O. }
  assert (Hwa : wf (prop O "auth")).
  { destruct O as [| | | | |ko sps]; try done.
    apply (wf_in ko sps "auth"); [done|].
    apply (prop_in (JObj ko sps)). by destruct (prop (JObj ko sps) "auth"). }
  assert (Hwp : wf (prop (prop O "auth") "providers")).
  { destruct (prop O "auth") as [| | | | |ka aps] eqn:Ea; try done.
    apply (wf_in ka aps "providers"); [done|].
    apply (prop_in (JObj ka aps)). by destruct (prop (JObj ka aps) "providers"). }
  assert (Hauth : prop (Config.merged_config I) "auth"
                  = baseMerge (Config.auth_literal I) (prop O "auth")).
  { rewrite Hm. rewrite prop_baseMerge_in_place; try done.
    unfold merged_in_place. by rewrite Ha. }
  assert (Hprov : prop (prop (Config.merged_config I) "auth") "providers"
                  = baseMerge (prop (Config.auth_literal I) "providers")
                              (prop (prop O "auth") "providers")).
  { rewrite Hauth. rewrite prop_baseMerge_in_place; try done.
    unfold merged_in_place. by rewrite Hpr. }
  set (base_providers := prop (Config.auth_literal I) "providers") in *.
  set (providers := prop (prop (Config.merged_config I) "auth") "providers") in *.
  assert (Hkind : kind_of providers = Some KPlain).
  { rewrite Hprov, kind_baseMerge. reflexivity. }
  assert (Hl : prop providers "length" = JUndefined).
  { rewrite Hprov. rewrite prop_baseMerge_absent; try done. }
  assert (Hv : prop providers p = JBool true).
  { rewrite Hprov. rewrite <- (node_nil (prop _ p)), <- node_cons.
    apply (overlay_leaf_wins_rec [p] base_providers _ (JBool true)); try done.
    - by constructor.
    - by rewrite node_cons, node_nil. }
  assert (Hobj : isObject (node (Config.merged_config I) ["auth"]) = true).
  { rewrite node_cons, node_nil, Hauth, isObject_baseMerge. reflexivity. }
  assert (Hsome : some providers = true).
  { clearbody providers. destruct providers as [| | | | |k ps]; try discriminate.
    injection Hkind as ->. by apply (some_plain_member ps p (JBool true)). }
  rewrite (final_flag I tree Hd Ht Hr Hobj). rewrite !node_cons, node_nil.
  unfold providers in Hsome. by rewrite Hsome.
Qed.

(** ** The locals of the views *)

Lemma lookup_spread {A} key (b : list (string * A)) : forall a,
  NoDup (keys b) ->
  lookup_prop key (spread_props a b) =
    match lookup_prop key b with
    | Some v => Some v
    | None => lookup_prop key a
    end.
Proof.
  unfold spread_props.
  induction b as [|[k v] b IH]; intros a Hnd; [done|].
  inversion Hnd as [|? ? Hk Hnd']; subst.
  cbn [fold_left fst snd lookup_prop]. rewrite (IH _ Hnd').
  destruct (String.eqb_spec k key) as [->|Hne].
  - destruct (lookup_prop key b) eqn:E.
    + exfalso. apply Hk. apply lookup_prop_Some_in in E.
      apply list_elem_of_In, in_map_iff. by exists (key, a0).
    + apply lookup_set_same.
  - by rewrite lookup_set_other.
Qed.

(** X15.  In the literal, the utilities are spread between the two pug
    defaults and the table of filters: a utility named [pretty] or [cache]
    replaces the default, every utility is a local of its own name, and a
    utility named [filters] is shadowed by the empty table. *)
Theorem view_locals_precedence (I : Config.inputs) (key : string) :
  NoDup (keys (Config.utilities I)) ->
  let locals := node (Config.base_config I) ["views"; "locals"] in
  prop locals "filters" = Config.obj [] /\
  (key <> "filters" ->
   forall v, lookup_prop key (Config.utilities I) = Some v -> prop locals key = v) /\
  (lookup_prop "pretty" (Config.utilities I) = None -> prop locals "pretty" = JBool true) /\
  (lookup_prop "cache" (Config.utilities I) = None ->
   prop locals "cache" = JBool (negb (Config.is_development I))).
Proof.
  intros Hnd. cbn zeta. rewrite !node_cons, node_nil.
  change (prop (prop (Config.base_config I) "views") "locals") with (Config.views_locals I).
  unfold Config.views_locals, Config.obj, prop. cbn [props].
  split; [by rewrite lookup_set_same|]. split; [|split].
  - intros Hk v Hv. rewrite lookup_set_other by congruence.
    by rewrite (lookup_spread key _ _ Hnd), Hv.
  - intros Hn. rewrite lookup_set_other by discriminate.
    by rewrite (lookup_spread "pretty" _ _ Hnd), Hn.
  - intros Hn. rewrite lookup_set_other by discriminate.
    by rewrite (lookup_spread "cache" _ _ Hnd), Hn.
Qed.

(** ** The properties above at sample deployments *)

Ltac nodup := apply (bool_decide_unpack _); vm_compute; exact Logic.I.

Lemma sample_github_runs : pipeline sample_github = Ok (state_of sample_github).
Proof.
  apply pipeline_run; vm_compute; reflexivity.
Qed.

Lemma wf_github_on : wf github_on.
Proof. simpl. repeat split; nodup. Qed.

Lemma wf_one_scope : wf one_scope.
Proof. simpl. repeat split; nodup. Qed.

Lemma wf_auth_null : wf auth_null.
Proof. simpl. repeat split; nodup. Qed.






Lemma overlay_keeps_keys_witness :
  has_key two_scopes "accessType" = true /\
  has_key (Config.apply_overlay two_scopes one_scope) "accessType" = true /\
  (prop two_scopes "accessType" <> JUndefined ->
   prop (Config.apply_overlay two_scopes one_scope) "accessType" <> JUndefined) /\
  kind_of (Config.apply_overlay two_scopes one_scope) = kind_of two_scopes.
Proof.
  split; [reflexivity|].
  exact (overlay_keeps_keys two_scopes one_scope "accessType" eq_refl).
Defined.

Lemma one_scalar : Forall scalar_value [JStr "openid"].
Proof. repeat constructor; discriminate. Qed.

Lemma overlay_array_by_index_witness :
  isObject two_scopes = true /\
  isObject one_scope = true /\
  wf one_scope /\
  plain_key "scope" /\
  prop two_scopes "scope" = array [JStr "email"; JStr "profile"] /\
  prop one_scope "scope" = array [JStr "openid"] /\
  Forall scalar_value [JStr "openid"] /\
  prop (Config.apply_overlay two_scopes one_scope) "scope"
    = array ([JStr "openid"] ++ drop (length [JStr "openid"]) [JStr "email"; JStr "profile"]).
Proof.
  assert (Hk : plain_key "scope") by (split; discriminate).
  split; [reflexivity|]. split; [reflexivity|]. split; [exact wf_one_scope|].
  split; [exact Hk|]. split; [reflexivity|]. split; [reflexivity|].
  split; [exact one_scalar|].
  exact (overlay_array_by_index two_scopes one_scope "scope"
           [JStr "email"; JStr "profile"] [JStr "openid"]
           eq_refl eq_refl wf_one_scope Hk eq_refl eq_refl one_scalar).
Defined.

Lemma sample_utilities : NoDup (keys (Config.utilities sample)).
Proof. nodup. Qed.

Lemma view_locals_precedence_witness :
  NoDup (keys (Config.utilities sample)) /\
  let locals := node (Config.base_config sample) ["views"; "locals"] in
  prop locals "filters" = Config.obj [] /\
  ("titleize" <> "filters" ->
   forall v, lookup_prop "titleize" (Config.utilities sample) = Some v ->
             prop locals "titleize" = v) /\
  (lookup_prop "pretty" (Config.utilities sample) = None ->
   prop locals "pretty" = JBool true) /\
  (lookup_prop "cache" (Config.utilities sample) = None ->
   prop locals "cache" = JBool (negb (Config.is_development sample))).
Proof.
  split; [exact sample_utilities|].
  exact (view_locals_precedence sample "titleize" sample_utilities).
Defined.

Lemma sample_auth_object : isObject (node (Config.merged_config sample) ["auth"]) = true.
Proof. reflexivity. Qed.

Lemma provider_flag_any_witness :
  pipeline sample = Ok (state_of sample) /\
  isObject (node (Config.merged_config sample) ["auth"]) = true /\
  let providers := node (Config.merged_config sample) ["auth"; "providers"] in
  let flag := get_path (st_heap (state_of sample)) config ["auth"; "hasThirdPartyProviders"] in
  (exists b, flag = Ok (VBool b)) /\
  (is_nullish providers = true -> flag = Ok (VBool false)) /\
  (forall ps, providers = Config.obj ps -> lookup_prop "length" ps = None ->
     flag = Ok (VBool (existsb truthy (map snd ps)))).
Proof.
  split; [exact sample_runs|]. split; [exact sample_auth_object|].
  exact (provider_flag_any sample (state_of sample) sample_runs sample_auth_object).
Defined.

Lemma sample_filters_scalar :
  isObject (node (Config.merged_config sample_filters_off) ["views"; "locals"; "filters"])
    = false.
Proof. vm_compute. reflexivity. Qed.

Lemma translate_filter_dropped_witness :
  pipeline sample_filters_off = Ok (state_of sample_filters_off) /\
  isObject (node (Config.merged_config sample_filters_off) ["views"; "locals"; "filters"])
    = false /\
  let h := st_heap (state_of sample_filters_off) in
  get_path h config ["views"; "locals"; "filters"]
    = Ok (tval (Config.merged_config sample_filters_off) ["views"; "locals"; "filters"]) /\
  get_path h config ["views"; "locals"; "filters"; "translate"] = Ok VUndefined.
Proof.
  split; [exact sample_filters_off_runs|]. split; [exact sample_filters_scalar|].
  exact (translate_filter_dropped sample_filters_off (state_of sample_filters_off)
           sample_filters_off_runs sample_filters_scalar).
Defined.

Lemma sample_i18n_plain : isPlainObject (node (Config.merged_config sample) ["i18n"]) = true.
Proof. reflexivity. Qed.

Lemma sample_i18n_object : isObject (node (Config.merged_config sample) ["i18n"]) = true.
Proof. reflexivity. Qed.

Lemma email_i18n_is_shared_witness :
  pipeline sample = Ok (state_of sample) /\
  isObject (node (Config.merged_config sample) ["i18n"]) = true /\
  let h := st_heap (state_of sample) in
  let i18n := VRef (LConfig ["i18n"]) in
  get_path h config ["i18n"] = Ok i18n /\
  get_path h config ["email"; "i18n"] = Ok i18n /\
  (forall key x h',
     heap_write h i18n key x = Ok h' ->
     get_path h' config ["i18n"; key] = Ok x /\
     get_path h' config ["email"; "i18n"; key] = Ok x /\
     get_path h' (VRef (LSite SI18nOptions)) [key]
       = get_path h (VRef (LSite SI18nOptions)) [key]).
Proof.
  split; [exact sample_runs|]. split; [exact sample_i18n_object|].
  exact (email_i18n_is_shared sample (state_of sample) sample_runs sample_i18n_object).
Defined.

Lemma engine_options_snapshot_witness :
  pipeline sample = Ok (state_of sample) /\
  isPlainObject (node (Config.merged_config sample) ["i18n"]) = true /\
  let h := st_heap (state_of sample) in
  let options := VRef (LSite SI18nOptions) in
  let logger := VRef (LSite SLogger) in
  (exists logger_options,
     get_path h config ["logger"] = Ok logger_options /\
     st_trace (state_of sample) =
       [ ENew "Logger" (LSite SLogger) [logger_options];
         ENew "I18N" (LSite SI18n) [options];
         ECall "nodemailer.createTransport" (LSite STransport)
           [VRef (LSite STransportOptions)];
         ECall "base64ToS3" (LSite SPlugin) [VRef (LSite SPluginOptions)];
         EUse (LSite STransport) "compile" (VRef (LSite SPlugin)) ]) /\
  get_path h options ["logger"] = Ok logger /\
  get_path h (VRef (LSite STransportOptions)) ["logger"] = Ok logger /\
  (forall key, key <> "logger" ->
     get_path h options [key] = get_path h config ["i18n"; key]).
Proof.
  split; [exact sample_runs|]. split; [exact sample_i18n_plain|].
  exact (engine_options_snapshot sample (state_of sample) sample_runs sample_i18n_plain).
Defined.

Lemma sample_views_plain : isPlainObject (node (Config.merged_config sample) ["views"]) = true.
Proof. reflexivity. Qed.

Lemma email_views_copies_every_key_witness :
  pipeline sample = Ok (state_of sample) /\
  isPlainObject (node (Config.merged_config sample) ["views"]) = true /\
  let h := st_heap (state_of sample) in
  (forall key, key <> "root" ->
     get_path h config ["email"; "views"; key] = get_path h config ["views"; key]) /\
  get_path h config ["email"; "views"; "locals"; "config"] = Ok config /\
  (isObject (node (Config.merged_config sample) ["views"; "locals"; "filters"]) = true ->
   get_path h config ["email"; "views"; "locals"; "filters"; "translate"]
     = Ok (VRef (LSite STranslate))).
Proof.
  split; [exact sample_runs|]. split; [exact sample_views_plain|].
  exact (email_views_copies_every_key sample (state_of sample) sample_runs sample_views_plain).
Defined.



Lemma sample_juice_object :
  isObject (node (Config.merged_config sample) ["email"; "juiceResources"]) = true.
Proof. reflexivity. Qed.

Lemma web_resources_follow_build_dir_witness :
  pipeline sample = Ok (state_of sample) /\
  isObject (node (Config.merged_config sample) ["email"; "juiceResources"]) = true /\
  let h := st_heap (state_of sample) in
  get_path h config ["email"; "juiceResources"; "webResources"]
    = Ok (VRef (LSite SWebResources)) /\
  get_path h config ["email"; "juiceResources"; "webResources"; "relativeTo"]
    = get_path h config ["buildDir"] /\
  get_path h config ["buildDir"] = Ok (tval (Config.merged_config sample) ["buildDir"]).
Proof.
  split; [exact sample_runs|]. split; [exact sample_juice_object|].
  exact (web_resources_follow_build_dir sample (state_of sample)
           sample_runs sample_juice_object).
Defined.

Lemma github_plain_key : plain_key "github".
Proof. split; discriminate. Qed.

Lemma overlay_enables_provider_witness :
  pipeline sample_github = Ok (state_of sample_github) /\
  wf (Config.overlay sample_github) /\
  node (Config.overlay sample_github) ["auth"; "providers"; "github"] = JBool true /\
  get_path (st_heap (state_of sample_github)) config ["auth"; "hasThirdPartyProviders"]
    = Ok (VBool true).
Proof.
  split; [exact sample_github_runs|]. split; [exact wf_github_on|]. split; [reflexivity|].
  exact (overlay_enables_provider sample_github (state_of sample_github) "github"
           sample_github_runs wf_github_on eq_refl eq_refl eq_refl eq_refl github_plain_key).
Defined.

Lemma overlay_null_throws_witness :
  wf (Config.overlay sample_auth_null) /\
  In ["auth"] required_blocks /\
  node (Config.overlay sample_auth_null) ["auth"] = JNull /\
  pipeline sample_auth_null = TypeError.
Proof.
  assert (Hin : In ["auth"] required_blocks) by (by left).
  split; [exact wf_auth_null|]. split; [exact Hin|]. split; [reflexivity|].
  exact (overlay_null_throws sample_auth_null ["auth"] wf_auth_null Hin eq_refl).
Defined.

